(** * dsps: photometry and dust-attenuation kernels

    A shallow embedding of [dsps/photometry_kernels.py],
    [dsps/dust/attenuation_kernels.py] and
    [dsps/diffstar_photometry_kernels.py].

    Numbers: the kernels compute on floats; here a finite float is read as
    the real number it denotes and every operation is exact, so rounding and
    overflow are outside the model.  The modules [Dust] and [Photometry]
    compute in [R], whose division is total: they follow the source wherever
    no division by zero, logarithm of a non-positive number or power of a
    non-positive base occurs.  The module [Ieee] adds the special values
    (infinities, NaN) for the steps where the source meets such a
    singularity.

    Arrays: a one-dimensional array is a [list R]; an array with leading
    batch axes is a list of arrays.  Elementwise array arithmetic is written
    with [map] and [map2].  JAX refuses operands of different lengths before
    any kernel runs; the list functions simply stop at the shorter one. *)

From Stdlib Require Import Reals Lra Lia List.
Import ListNotations.

Local Open Scope R_scope.

(** ** Array primitives *)

Module Arr.

(** Elementwise combination of two arrays of the same length. *)
Fixpoint map2 {A B C : Type} (f : A -> B -> C) (xs : list A) (ys : list B)
  : list C :=
  match xs, ys with
  | x :: xs', y :: ys' => f x y :: map2 f xs' ys'
  | _, _ => []
  end.

(** [jnp.where(c, a, b)] on a scalar, the condition being a decided
    comparison. *)
Definition where_ {P Q : Prop} (c : {P} + {Q}) (a b : R) : R :=
  if c then a else b.

(** Case analysis on every comparison a [where_] or a branch decides. *)
Ltac case_where :=
  unfold where_;
  repeat match goal with
         | |- context [match ?c with left _ => _ | right _ => _ end] =>
             destruct c
         end.

(** Sum of the entries of an array. *)
Fixpoint sum (xs : list R) : R :=
  match xs with
  | [] => 0
  | x :: xs' => x + sum xs'
  end.

(** [y[1:] + y[:-1]] paired with [diff(x)]: the list of
    [dx_i * (y_{i+1} + y_i)]. *)
Fixpoint trapz_terms (y x : list R) : list R :=
  match y, x with
  | y0 :: ((y1 :: _) as y'), x0 :: ((x1 :: _) as x') =>
      (x1 - x0) * (y1 + y0) :: trapz_terms y' x'
  | _, _ => []
  end.

(** [jnp.trapz(y, x=x)]: [0.5 * (dx * (y[1:] + y[:-1])).sum()]. *)
Definition trapz (y x : list R) : R := 0.5 * sum (trapz_terms y x).

(** One evaluation of [jnp.interp]: [go] walks the knots
    [(x0, f0), (x1, f1), ...] and stops at the first segment whose right end
    lies strictly above [x], or at the last segment (the index
    [clip(searchsorted(xp, x, side='right'), 1, len(xp) - 1)]); the value is
    [f0] on a segment of zero width (in JAX, of width at most the smallest
    float spacing) and the chord [f0 + (x - x0) / (x1 - x0) * (f1 - f0)]
    otherwise. *)
Fixpoint interp_go (x x0 f0 : R) (xp fp : list R) : R :=
  match xp, fp with
  | x1 :: xp', f1 :: fp' =>
      match xp' with
      | _ :: _ =>
          if Rlt_dec x x1
          then where_ (Req_dec_T (x1 - x0) 0) f0
                      (f0 + (x - x0) / (x1 - x0) * (f1 - f0))
          else interp_go x x1 f1 xp' fp'
      | [] =>
          where_ (Req_dec_T (x1 - x0) 0) f0
                 (f0 + (x - x0) / (x1 - x0) * (f1 - f0))
      end
  | _, _ => f0
  end.

(** [jnp.interp(x, xp, fp, left=left, right=right)] at a scalar [x]. *)
Definition interp1 (x : R) (xp fp : list R) (left right : R) : R :=
  match xp, fp with
  | x0 :: xp', f0 :: fp' =>
      let f := interp_go x x0 f0 xp' fp' in
      let f := where_ (Rlt_dec x x0) left f in
      where_ (Rgt_dec x (last xp x0)) right f
  | _, _ => 0
  end.

(** [jnp.interp] at an array of abscissae. *)
Definition interp (x xp fp : list R) (left right : R) : list R :=
  map (fun xi => interp1 xi xp fp left right) x.

(** [jnp.log10], on positive arguments; [Ieee.xlog10] below has its values
    at zero and on negative arguments. *)
Definition log10 (x : R) : R := ln x / ln 10.

End Arr.

(** ** Dust attenuation curves: [dsps/dust/attenuation_kernels.py] *)

Module Dust.
Import Arr.

Definition RV_C00 : R := 4.05.
Definition N09_X0_MIN : R := 0.0.
Definition N09_GAMMA_MIN : R := 0.0.
Definition N09_SLOPE_MIN : R := -3.0.
Definition N09_SLOPE_MAX : R := 3.0.
Definition UV_BUMP_W0 : R := 2175.
Definition UV_BUMP_DW : R := 350.

Definition _attenuation_curve (axEbv rv av : R) : R :=
  let attenuation := av * axEbv / rv in
  where_ (Rlt_dec attenuation 0) 0 attenuation.

Definition _flux_ratio (axEbv rv av frac_unobscured : R) : R :=
  let frac_att_obs := Rpower 10 (-0.4 * _attenuation_curve axEbv rv av) in
  let frac_att := frac_unobscured + (1 - frac_unobscured) * frac_att_obs in
  frac_att.

(** The call with [frac_unobscured] left at its default [0.0]. *)
Definition _flux_ratio_default (axEbv rv av : R) : R :=
  _flux_ratio axEbv rv av 0.0.

Definition _get_optical_depth_V (logsm logssfr tau_mstar tau_ssfr tau_norm : R)
  : R :=
  tau_mstar * (logsm - 10) + tau_ssfr * (logssfr + 10) + tau_norm.

Definition _get_attentuation_amplitude
  (logsm logssfr tau_mstar tau_ssfr tau_norm cosi : R) : R :=
  let tau_v := _get_optical_depth_V logsm logssfr tau_mstar tau_ssfr tau_norm in
  let x := tau_v / cosi in
  let logarg := (1 - exp (- x)) / x in
  let Av := -2.5 * log10 logarg in
  Av.

Definition _get_eb_from_delta (delta : R) : R := -1.9 * delta + 0.85.

Definition _get_delta (logsm logssfr delta_mstar delta_ssfr delta_norm : R)
  : R :=
  delta_mstar * (logsm - 10) + delta_ssfr * (logssfr + 10) + delta_norm.

Definition calzetti00_k_lambda (x rv : R) : R :=
  let axEbv1 :=
    2.659 * (-2.156 + 1.509 * 1 / x - 0.198 * 1 / x ^ 2 + 0.011 * 1 / x ^ 3)
    + rv in
  let axEbv2 := 2.659 * (-1.857 + 1.040 * 1 / x) + rv in
  where_ (Rlt_dec x 0.63) axEbv1 axEbv2.

(** The argument [rv] is accepted and ignored, as in the source. *)
Definition leitherer02_k_lambda (x rv : R) : R :=
  let axEbv :=
    5.472 + (0.671 * 1 / x - 9.218 * 1e-3 / x ^ 2 + 2.620 * 1e-3 / x ^ 3) in
  axEbv.

Definition drude_bump (x x0 gamma ampl : R) : R :=
  let bump :=
    x ^ 2 * gamma ^ 2 / ((x ^ 2 - x0 ^ 2) ^ 2 + x ^ 2 * gamma ^ 2) in
  ampl * bump.

(** Power law normalised at 0.55 microns (V band). *)
Definition power_law_vband_norm (x slope : R) : R := Rpower (x / 0.55) slope.

Definition _l02_below_c00_above (x xc : R) : R :=
  let axEbv_c00 := calzetti00_k_lambda x RV_C00 in
  let axEbv_l02 := leitherer02_k_lambda x RV_C00 in
  let axEbv := where_ (Rgt_dec x xc) axEbv_c00 axEbv_l02 in
  axEbv.

Definition noll09_k_lambda (x x0 gamma ampl slope : R) : R :=
  let axEbv := _l02_below_c00_above x 0.15 in
  let axEbv := axEbv + drude_bump x x0 gamma ampl in
  let axEbv := axEbv * power_law_vband_norm x slope in
  let axEbv := where_ (Rlt_dec axEbv 0) 0 axEbv in
  axEbv.

Definition sbl18_k_lambda (x x0 gamma ampl slope : R) : R :=
  let axEbv := _l02_below_c00_above x 0.15 in
  let axEbv := axEbv * power_law_vband_norm x slope in
  let axEbv := axEbv + drude_bump x x0 gamma ampl in
  let axEbv := where_ (Rlt_dec axEbv 0) 0 axEbv in
  axEbv.

Definition _get_filter_effective_wavelength
  (filter_wave filter_trans : list R) (redshift : R) : R :=
  let norm := trapz filter_trans filter_wave in
  let lambda_eff_rest :=
    trapz (map2 Rmult filter_trans filter_wave) filter_wave / norm in
  let lambda_eff := lambda_eff_rest / (1 + redshift) in
  lambda_eff.

(** [dust_params] is the triple [(dust_Eb, dust_delta, dust_Av)]. *)
Definition _get_effective_attenuation
  (filter_wave filter_trans : list R) (redshift : R)
  (dust_params : R * R * R) : R :=
  let lambda_eff :=
    _get_filter_effective_wavelength filter_wave filter_trans redshift in
  let lambda_eff_micron := lambda_eff / 10000 in
  let '(dust_Eb, dust_delta, dust_Av) := dust_params in
  let dust_x0_microns := UV_BUMP_W0 / 10000 in
  let bump_width_microns := UV_BUMP_DW / 10000 in
  let axEbv :=
    sbl18_k_lambda lambda_eff_micron dust_x0_microns bump_width_microns
                   dust_Eb dust_delta in
  let attenuation_factor := _flux_ratio_default axEbv RV_C00 dust_Av in
  attenuation_factor.

Section Triweight.

(** [_tw_sig_slope] is imported from [dsps.utils]; the kernel only calls
    it. *)
Variable _tw_sig_slope : R -> R -> R -> R -> R -> R -> R -> R.

(** Smooth approximation to Noll+09 k_lambda with well-behaved
    asymptotics. *)
Definition triweight_k_lambda (x_micron xtp ytp x0 tw_h lo hi : R) : R :=
  let lgx := log10 x_micron in
  let lgk_lambda := _tw_sig_slope lgx xtp ytp x0 tw_h lo hi in
  let k_lambda := Rpower 10 lgk_lambda in
  k_lambda.

(** The call with every keyword argument left at its default. *)
Definition triweight_k_lambda_default (x_micron : R) : R :=
  triweight_k_lambda x_micron (-1.0) 1.15 0.5 0.5 (-0.65) (-1.95).

End Triweight.

End Dust.

(** ** Photometry: [dsps/photometry_kernels.py] *)

Module Photometry.
Import Arr.

(** 3631 Jansky placed at 10 pc in units of Lsun/Hz. *)
Definition AB0 : R := 1.13492e-13.

Definition _flux_ab0_at_10pc (wave_filter trans_filter : list R) : R :=
  let integrand := map2 Rdiv (map (fun t => t * AB0) trans_filter) wave_filter in
  let lum_ab0_filter := trapz integrand wave_filter in
  lum_ab0_filter.

Definition _rest_flux_ssp (wave_spec_rest lum_spec wave_filter trans_filter
  : list R) : R :=
  let lum_phot := interp wave_filter wave_spec_rest lum_spec 0 0 in
  let integrand := map2 Rdiv (map2 Rmult trans_filter lum_phot) wave_filter in
  let lum_filter := trapz integrand wave_filter in
  lum_filter.

Definition _obs_flux_ssp (wave_spec_rest lum_spec wave_filter trans_filter
  : list R) (z : R) : R :=
  let lum_zshift_phot :=
    interp wave_filter (map (fun w => w * (1 + z)) wave_spec_rest) lum_spec
           0 0 in
  let integrand :=
    map2 Rdiv (map2 Rmult trans_filter lum_zshift_phot) wave_filter in
  let lum_filter := trapz integrand wave_filter in
  lum_filter.

Definition _calc_rest_mag (wave_spec_rest lum_spec wave_filter trans_filter
  : list R) : R :=
  let flux_source :=
    _rest_flux_ssp wave_spec_rest lum_spec wave_filter trans_filter in
  let flux_ab0 := _flux_ab0_at_10pc wave_filter trans_filter in
  -2.5 * log10 (flux_source / flux_ab0).

Definition _calc_obs_mag_no_dimming
  (wave_spec_rest lum_spec wave_filter trans_filter : list R) (z : R) : R :=
  let flux_source :=
    _obs_flux_ssp wave_spec_rest lum_spec wave_filter trans_filter z in
  let flux_ab0 := _flux_ab0_at_10pc wave_filter trans_filter in
  -2.5 * log10 (flux_source / flux_ab0).

Definition _cosmological_dimming_from_table
  (z : R) (z_table distance_modulus_table : list R) : R :=
  let distance_modulus :=
    interp1 z z_table distance_modulus_table
            (hd 0 distance_modulus_table)
            (last distance_modulus_table 0) in
  distance_modulus - 2.5 * log10 (1 + z).

Section Cosmology.

(** [_distance_modulus_to_z] is imported from [flat_wcdm], the cosmology
    collaborator; the kernels only call it. *)
Variable _distance_modulus_to_z : R -> R -> R -> R -> R -> R -> R.

Definition _cosmological_dimming (z Om0 Ode0 w0 wa h : R) : R :=
  let dmod := _distance_modulus_to_z z Om0 Ode0 w0 wa h in
  dmod - 2.5 * log10 (1 + z).

Definition _calc_obs_mag
  (wave_spec_rest lum_spec wave_filter trans_filter : list R)
  (z Om0 Ode0 w0 wa h : R) : R :=
  let flux_source :=
    _obs_flux_ssp wave_spec_rest lum_spec wave_filter trans_filter z in
  let flux_ab0 := _flux_ab0_at_10pc wave_filter trans_filter in
  let mag_no_dimming := -2.5 * log10 (flux_source / flux_ab0) in
  let dimming := _cosmological_dimming z Om0 Ode0 w0 wa h in
  mag_no_dimming + dimming.

End Cosmology.

(** *** Batched evaluation

    [jvmap(f, in_axes=_a)] maps [f] over the leading axis of its second
    argument and [jvmap(f, in_axes=_b)] over the leading axis of its fifth;
    the other arguments are passed whole to every call, and the results are
    stacked along a new leading axis. *)

Definition jvmap_a {W L F T Z O : Type} (f : W -> L -> F -> T -> Z -> O)
  : W -> list L -> F -> T -> Z -> list O :=
  fun w ls fw ft z => map (fun l => f w l fw ft z) ls.

Definition jvmap_b {W L F T Z O : Type} (f : W -> L -> F -> T -> Z -> O)
  : W -> L -> F -> T -> list Z -> list O :=
  fun w l fw ft zs => map (fun z => f w l fw ft z) zs.

Definition _obs_flux_ssp_vmap
  : list R -> list (list (list R)) -> list R -> list R -> list R
    -> list (list (list R)) :=
  jvmap_a (jvmap_a (jvmap_b _obs_flux_ssp)).

Definition _calc_obs_mag_no_dimming_vmap
  : list R -> list (list (list R)) -> list R -> list R -> list R
    -> list (list (list R)) :=
  jvmap_a (jvmap_a (jvmap_b _calc_obs_mag_no_dimming)).

Definition _calc_obs_mag_no_dimming_vmap_singlemet
  : list R -> list (list R) -> list R -> list R -> list R
    -> list (list R) :=
  jvmap_a (jvmap_b _calc_obs_mag_no_dimming).

(** The triple loop of the specification: entry [(i, j, k)] of the output is
    the scalar call on spectrum [(i, j)] and redshift [k], the metallicity
    index outermost, then age, then galaxy. *)
Definition tabulate {A : Type} (n : nat) (g : nat -> A) : list A :=
  map g (seq 0 n).

Definition obs_mag_no_dimming_loop (n_met n_age n_gal : nat)
  (wave_spec_rest : list R) (lum_spec : list (list (list R)))
  (wave_filter trans_filter z : list R) : list (list (list R)) :=
  tabulate n_met (fun i =>
    tabulate n_age (fun j =>
      tabulate n_gal (fun k =>
        _calc_obs_mag_no_dimming wave_spec_rest
          (nth j (nth i lum_spec []) []) wave_filter trans_filter
          (nth k z 0)))).

(** Entry [(i, j, k)] of a three-axis array. *)
Definition at3 (a : list (list (list R))) (i j k : nat) : option R :=
  match nth_error a i with
  | Some row =>
      match nth_error row j with
      | Some col => nth_error col k
      | None => None
      end
  | None => None
  end.

(** Shapes of batched inputs and outputs. *)
Definition shape2 {A : Type} (n m : nat) (a : list (list A)) : Prop :=
  length a = n /\ Forall (fun row => length row = m) a.

Definition shape3 {A : Type} (n m p : nat) (a : list (list (list A))) : Prop :=
  length a = n /\ Forall (shape2 m p) a.

(** The invariants of the data model.  A wavelength axis is strictly
    increasing; a filter curve pairs at least two positive, strictly
    increasing wavelengths with as many transmissions, none negative. *)
Fixpoint increasing (xs : list R) : Prop :=
  match xs with
  | x0 :: ((x1 :: _) as xs') => x0 < x1 /\ increasing xs'
  | _ => True
  end.

Definition valid_filter_curve (wave_filter trans_filter : list R) : Prop :=
  length wave_filter = length trans_filter
  /\ (2 <= length wave_filter)%nat
  /\ increasing wave_filter
  /\ Forall (fun w => 0 < w) wave_filter
  /\ Forall (fun t => 0 <= t) trans_filter.

End Photometry.

(** ** Rest-frame magnitude of a diffstar galaxy:
    [dsps/diffstar_photometry_kernels.py] *)

Module DiffstarPhotometry.
Import Photometry.

Section WeightedSSP.

(** The two weight arrays the collaborator returns are not used here. *)
Variables LgmetWeights AgeWeights : Type.

(** [_calc_weighted_ssp_from_diffstar_params_const_zmet] is imported from
    [weighted_ssps]; the kernel only calls it.  Its arguments are [t_obs],
    [lgZsun_bin_mids], [log_age_gyr], [spec_flux], the three parameter
    tuples, [lgmet] and [lgmet_scatter]; it returns the weights and the
    weighted spectrum. *)
Variable _calc_weighted_ssp_from_diffstar_params_const_zmet :
  R -> list R -> list R -> list (list (list R))
  -> R * R * R * R * R * R
  -> R * R * R * R * R * R * R
  -> R * R * R * R
  -> R -> R
  -> LgmetWeights * AgeWeights * list R.

Definition _calc_weighted_rest_mag_from_diffstar_params_const_zmet
  (t_obs : R) (lgZsun_bin_mids log_age_gyr spec_wave : list R)
  (spec_flux : list (list (list R))) (filter_wave filter_flux : list R)
  (mah_logt0 mah_logmp mah_logtc mah_k mah_early mah_late : R)
  (lgmcrit lgy_at_mcrit indx_k indx_lo indx_hi floor_low tau_dep : R)
  (lg_qt lg_qs lg_drop lg_rejuv : R)
  (lgmet lgmet_scatter : R) : R :=
  let mah_params :=
    (mah_logt0, mah_logmp, mah_logtc, mah_k, mah_early, mah_late) in
  let ms_params :=
    (lgmcrit, lgy_at_mcrit, indx_k, indx_lo, indx_hi, floor_low, tau_dep) in
  let q_params := (lg_qt, lg_qs, lg_drop, lg_rejuv) in
  let _res :=
    _calc_weighted_ssp_from_diffstar_params_const_zmet
      t_obs lgZsun_bin_mids log_age_gyr spec_flux mah_params ms_params
      q_params lgmet lgmet_scatter in
  let '(lgmet_weights, age_weights, weighted_ssp) := _res in
  let rest_mag :=
    _calc_rest_mag spec_wave weighted_ssp filter_wave filter_flux in
  rest_mag.

End WeightedSSP.

End DiffstarPhotometry.

(** ** Special values: the singular steps of the kernels *)

Module Ieee.
Import Arr.

(** A float: a finite value, an infinity, or NaN.  Zero carries no sign: a
    division by zero is read as a division by [+0]. *)
Inductive xreal : Type :=
| Fin (r : R)
| PInf
| NInf
| NaN.

(** The infinity with the sign of [a]; NaN when [a] is zero. *)
Definition inf_of_sign (a : R) : xreal :=
  if Rlt_dec 0 a then PInf else if Rlt_dec a 0 then NInf else NaN.

Definition xneg (a : xreal) : xreal :=
  match a with
  | Fin x => Fin (- x)
  | PInf => NInf
  | NInf => PInf
  | NaN => NaN
  end.

Definition xadd (a b : xreal) : xreal :=
  match a, b with
  | NaN, _ | _, NaN => NaN
  | Fin x, Fin y => Fin (x + y)
  | PInf, NInf | NInf, PInf => NaN
  | PInf, _ | _, PInf => PInf
  | NInf, _ | _, NInf => NInf
  end.

Definition xsub (a b : xreal) : xreal := xadd a (xneg b).

Definition xmul (a b : xreal) : xreal :=
  match a, b with
  | NaN, _ | _, NaN => NaN
  | Fin x, Fin y => Fin (x * y)
  | Fin x, PInf | PInf, Fin x => inf_of_sign x
  | Fin x, NInf | NInf, Fin x => inf_of_sign (- x)
  | PInf, PInf | NInf, NInf => PInf
  | PInf, NInf | NInf, PInf => NInf
  end.

Definition xdiv (a b : xreal) : xreal :=
  match a, b with
  | NaN, _ | _, NaN => NaN
  | Fin x, Fin y => if Req_dec_T y 0 then inf_of_sign x else Fin (x / y)
  | Fin _, PInf | Fin _, NInf => Fin 0
  | PInf, Fin y => if Rlt_dec y 0 then NInf else PInf
  | NInf, Fin y => if Rlt_dec y 0 then PInf else NInf
  | PInf, PInf | PInf, NInf | NInf, PInf | NInf, NInf => NaN
  end.

(** [a < b]; every comparison with NaN is false. *)
Definition xlt (a b : xreal) : bool :=
  match a, b with
  | Fin x, Fin y => if Rlt_dec x y then true else false
  | NInf, Fin _ | NInf, PInf | Fin _, PInf => true
  | _, _ => false
  end.

(** [jnp.where(c, a, b)] on a scalar. *)
Definition xwhere (c : bool) (a b : xreal) : xreal := if c then a else b.

(** [10 ** y]. *)
Definition xpow10 (y : xreal) : xreal :=
  match y with
  | Fin r => Fin (Rpower 10 r)
  | PInf => PInf
  | NInf => Fin 0
  | NaN => NaN
  end.

(** [jnp.log10]: minus infinity at zero, NaN below it. *)
Definition xlog10 (a : xreal) : xreal :=
  match a with
  | Fin r =>
      if Rlt_dec 0 r then Fin (log10 r)
      else if Rlt_dec r 0 then NaN else NInf
  | PInf => PInf
  | NInf => NaN
  | NaN => NaN
  end.

(** [_attenuation_curve] and [_flux_ratio] of [attenuation_kernels.py],
    operation by operation. *)
Definition _attenuation_curve (axEbv rv av : xreal) : xreal :=
  let attenuation := xdiv (xmul av axEbv) rv in
  xwhere (xlt attenuation (Fin 0)) (Fin 0) attenuation.

Definition _flux_ratio (axEbv rv av frac_unobscured : xreal) : xreal :=
  let frac_att_obs :=
    xpow10 (xmul (Fin (-0.4)) (_attenuation_curve axEbv rv av)) in
  let frac_att :=
    xadd frac_unobscured
         (xmul (xsub (Fin 1) frac_unobscured) frac_att_obs) in
  frac_att.

(** The call with [frac_unobscured] left at its default [0.0]. *)
Definition _flux_ratio_default (axEbv rv av : xreal) : xreal :=
  _flux_ratio axEbv rv av (Fin 0.0).

(** [_calc_rest_mag] of [photometry_kernels.py].  The two fluxes are those
    of [Photometry]: on finite arrays their only divisions are by filter
    wavelengths and by knot spacings that [jnp.interp] guards, so they are
    finite whenever no filter wavelength is zero.  The quotient, the
    logarithm and the factor [-2.5] carry the special values. *)
Definition _calc_rest_mag (wave_spec_rest lum_spec wave_filter trans_filter
  : list R) : xreal :=
  let flux_source :=
    Fin (Photometry._rest_flux_ssp wave_spec_rest lum_spec wave_filter
                                   trans_filter) in
  let flux_ab0 :=
    Fin (Photometry._flux_ab0_at_10pc wave_filter trans_filter) in
  xmul (Fin (-2.5)) (xlog10 (xdiv flux_source flux_ab0)).

End Ieee.

(** * Properties of the dust curves *)

Module DustFacts.
Import Arr Dust.

Lemma where_true {P Q : Prop} (c : {P} + {Q}) (a b : R) :
  ~ Q -> where_ c a b = a.
Proof. intros H. unfold where_. destruct c; [reflexivity | contradiction]. Qed.

Lemma where_false {P Q : Prop} (c : {P} + {Q}) (a b : R) :
  ~ P -> where_ c a b = b.
Proof. intros H. unfold where_. destruct c; [contradiction | reflexivity]. Qed.

(** Clipping at zero is the maximum with zero. *)
Lemma clip0_Rmax (a : R) : where_ (Rlt_dec a 0) 0 a = Rmax 0 a.
Proof.
  unfold Rmax. case_where; lra.
Qed.

(** The Leitherer02 polynomial in [1/x], with the coefficients as the
    specification prints them. *)
Lemma leitherer02_formula (x rv : R) :
  leitherer02_k_lambda x rv
  = 5.472 + 0.671 / x - 9.218e-3 / x ^ 2 + 2.620e-3 / x ^ 3.
Proof.
  unfold leitherer02_k_lambda.
  replace (9.218 * 1e-3) with 9.218e-3 by lra.
  replace (2.620 * 1e-3) with 2.620e-3 by lra.
  replace (0.671 * 1) with 0.671 by lra.
  lra.
Qed.

(** C1, as the code has it: the blended base curve of Noll09 and Salim18
    switches strictly above [xc = 0.15].  For every [x <= 0.15], the point
    0.15 included, it is the Leitherer02 curve
    [5.472 + 0.671/x - 9.218e-3/x^2 + 2.620e-3/x^3]; for every [x > 0.15] it
    is the Calzetti00 curve with [Rv = 4.05]. *)
Theorem l02_below_c00_above_regimes (x : R) :
  (x <= 0.15 ->
   _l02_below_c00_above x 0.15
   = 5.472 + 0.671 / x - 9.218e-3 / x ^ 2 + 2.620e-3 / x ^ 3)
  /\ (x > 0.15 ->
      _l02_below_c00_above x 0.15 = calzetti00_k_lambda x 4.05).
Proof.
  unfold _l02_below_c00_above, RV_C00. split; intros Hx.
  - rewrite where_false by lra. apply leitherer02_formula.
  - rewrite where_true by lra. reflexivity.
Qed.

Lemma l02_below_c00_above_regimes_witness :
  _l02_below_c00_above 0.1 0.15
  = 5.472 + 0.671 / 0.1 - 9.218e-3 / 0.1 ^ 2 + 2.620e-3 / 0.1 ^ 3
  /\ _l02_below_c00_above 0.55 0.15 = calzetti00_k_lambda 0.55 4.05.
Proof.
  split.
  - apply (proj1 (l02_below_c00_above_regimes 0.1)). lra.
  - apply (proj2 (l02_below_c00_above_regimes 0.55)). lra.
Defined.

(** C1 as stated fails at the boundary: at [x = 0.15], which satisfies
    [x >= 0.15], the blended curve takes the Leitherer02 value
    (about 10.312), not the Calzetti00 value (about 10.334). *)
Lemma l02_below_c00_above_at_boundary :
  0.15 >= 0.15
  /\ _l02_below_c00_above 0.15 0.15 <> calzetti00_k_lambda 0.15 4.05.
Proof.
  split; [lra |].
  unfold _l02_below_c00_above, RV_C00.
  rewrite where_false by lra.
  unfold calzetti00_k_lambda, leitherer02_k_lambda.
  rewrite where_true by lra.
  lra.
Qed.

(** The V-band power law of slope zero is constantly one. *)
Lemma power_law_vband_norm_slope0 (x : R) : power_law_vband_norm x 0 = 1.
Proof.
  unfold power_law_vband_norm, Rpower.
  rewrite Rmult_0_l. apply exp_0.
Qed.

(** C5: with [slope = 0] the Noll09 and Salim18 curves agree at every
    wavelength [x] and for all bump parameters [x0], [gamma], [ampl]. *)
Theorem noll09_eq_sbl18_slope0 (x x0 gamma ampl : R) :
  noll09_k_lambda x x0 gamma ampl 0 = sbl18_k_lambda x x0 gamma ampl 0.
Proof.
  unfold noll09_k_lambda, sbl18_k_lambda. cbv zeta.
  rewrite power_law_vband_norm_slope0.
  set (base := _l02_below_c00_above x 0.15).
  set (bump := drude_bump x x0 gamma ampl).
  replace ((base + bump) * 1) with (base * 1 + bump) by ring.
  reflexivity.
Qed.

(** C7: [_attenuation_curve] is never negative, whatever the signs of
    [axEbv], [rv] and [av]: it is [av * axEbv / rv] clipped at zero from
    below. *)
Theorem attenuation_curve_nonneg (axEbv rv av : R) :
  0 <= _attenuation_curve axEbv rv av
  /\ _attenuation_curve axEbv rv av = Rmax 0 (av * axEbv / rv).
Proof.
  unfold _attenuation_curve. rewrite clip0_Rmax.
  split; [apply Rmax_l | reflexivity].
Qed.

(** On finite arguments with [rv <> 0] no special value arises, and the
    two embeddings of [_attenuation_curve] and [_flux_ratio] agree. *)
Lemma ieee_attenuation_curve_finite (axEbv rv av : R) :
  rv <> 0 ->
  Ieee._attenuation_curve (Ieee.Fin axEbv) (Ieee.Fin rv) (Ieee.Fin av)
  = Ieee.Fin (_attenuation_curve axEbv rv av).
Proof.
  intros Hrv. unfold Ieee._attenuation_curve, _attenuation_curve. cbv zeta.
  simpl. destruct (Req_dec_T rv 0) as [He | _]; [contradiction |].
  unfold Ieee.xlt, Ieee.xwhere, where_.
  destruct (Rlt_dec (av * axEbv / rv) 0); reflexivity.
Qed.

Lemma ieee_flux_ratio_finite (axEbv rv av frac_unobscured : R) :
  rv <> 0 ->
  Ieee._flux_ratio (Ieee.Fin axEbv) (Ieee.Fin rv) (Ieee.Fin av)
                   (Ieee.Fin frac_unobscured)
  = Ieee.Fin (_flux_ratio axEbv rv av frac_unobscured).
Proof.
  intros Hrv. unfold Ieee._flux_ratio, _flux_ratio. cbv zeta.
  rewrite ieee_attenuation_curve_finite by exact Hrv.
  reflexivity.
Qed.

(** C8, as the code has it: with zero reddening and [frac_unobscured] at
    its default [0], the transmitted fraction is exactly 1 for every
    finite [av] and every finite [rv] other than zero. *)
Theorem flux_ratio_axEbv0 (rv av : R) :
  rv <> 0 ->
  Ieee._flux_ratio_default (Ieee.Fin 0) (Ieee.Fin rv) (Ieee.Fin av)
  = Ieee.Fin 1
  /\ _flux_ratio_default 0 rv av = 1
  /\ _flux_ratio 0 rv av 0 = 1.
Proof.
  intros Hrv.
  assert (Hatt : _attenuation_curve 0 rv av = 0).
  { unfold _attenuation_curve.
    replace (av * 0 / rv) with 0 by (unfold Rdiv; ring).
    apply where_false. lra. }
  assert (Hone : forall f, f = 0 -> _flux_ratio 0 rv av f = 1).
  { intros f Hf. unfold _flux_ratio. rewrite Hatt.
    replace (-0.4 * 0) with 0 by ring.
    unfold Rpower. rewrite Rmult_0_l, exp_0. lra. }
  repeat split.
  - unfold Ieee._flux_ratio_default.
    rewrite ieee_flux_ratio_finite by exact Hrv.
    f_equal. apply Hone. lra.
  - unfold _flux_ratio_default. apply Hone. lra.
  - now apply Hone.
Qed.

Lemma flux_ratio_axEbv0_witness :
  Ieee._flux_ratio_default (Ieee.Fin 0) (Ieee.Fin 4.05) (Ieee.Fin 1)
  = Ieee.Fin 1
  /\ _flux_ratio_default 0 4.05 1 = 1
  /\ _flux_ratio 0 4.05 1 0 = 1.
Proof. apply (flux_ratio_axEbv0 4.05 1). lra. Defined.

(** C8 as stated fails at [rv = 0]: with [axEbv = 0], [rv = 0], [av = 1]
    the attenuation is [1 * 0 / 0], which is NaN, and NaN is what
    [_flux_ratio] returns, not 1. *)
Lemma flux_ratio_axEbv0_at_rv0 :
  Ieee._flux_ratio_default (Ieee.Fin 0) (Ieee.Fin 0) (Ieee.Fin 1) = Ieee.NaN
  /\ Ieee._flux_ratio_default (Ieee.Fin 0) (Ieee.Fin 0) (Ieee.Fin 1)
     <> Ieee.Fin 1.
Proof.
  assert (H : Ieee._flux_ratio_default (Ieee.Fin 0) (Ieee.Fin 0) (Ieee.Fin 1)
              = Ieee.NaN).
  { unfold Ieee._flux_ratio_default, Ieee._flux_ratio,
      Ieee._attenuation_curve. cbv zeta. simpl.
    destruct (Req_dec_T 0 0) as [_ | Hne]; [| now contradiction Hne].
    unfold Ieee.inf_of_sign.
    destruct (Rlt_dec 0 (1 * 0)) as [H | _]; [lra |].
    destruct (Rlt_dec (1 * 0) 0) as [H | _]; [lra |].
    reflexivity. }
  split; [exact H | rewrite H; discriminate].
Qed.

End DustFacts.

(** * Properties of the photometry kernels *)

Module PhotometryFacts.
Import Arr Photometry.

(** C3: the magnitude with dimming is the magnitude without dimming plus
    [distance_modulus(z, cosmology) - 2.5 * log10(1 + z)], for every
    spectrum, filter, redshift and cosmology, and whatever function the
    cosmology collaborator supplies as distance modulus. *)
Theorem calc_obs_mag_dimming
  (distance_modulus : R -> R -> R -> R -> R -> R -> R)
  (wave_spec_rest lum_spec wave_filter trans_filter : list R)
  (z Om0 Ode0 w0 wa h : R) :
  _calc_obs_mag distance_modulus wave_spec_rest lum_spec wave_filter
                trans_filter z Om0 Ode0 w0 wa h
  = _calc_obs_mag_no_dimming wave_spec_rest lum_spec wave_filter
                             trans_filter z
    + (distance_modulus z Om0 Ode0 w0 wa h - 2.5 * log10 (1 + z))
  /\ _cosmological_dimming distance_modulus z Om0 Ode0 w0 wa h
     = distance_modulus z Om0 Ode0 w0 wa h - 2.5 * log10 (1 + z).
Proof. split; reflexivity. Qed.

(** Scaling a wavelength axis by [1 + 0] leaves it unchanged. *)
Lemma redshift0_wave (wave : list R) :
  map (fun w => w * (1 + 0)) wave = wave.
Proof.
  induction wave as [| w wave IH]; simpl; [reflexivity |].
  rewrite IH. f_equal. ring.
Qed.

(** C4: the observed flux is the rest-frame flux of the spectrum whose
    wavelength axis is scaled by [1 + z], the luminosities untouched; at
    [z = 0] the two fluxes coincide, and so do [_calc_rest_mag] and
    [_calc_obs_mag_no_dimming]. *)
Theorem obs_flux_is_rest_flux_redshifted
  (wave_spec_rest lum_spec wave_filter trans_filter : list R) (z : R) :
  _obs_flux_ssp wave_spec_rest lum_spec wave_filter trans_filter z
  = _rest_flux_ssp (map (fun w => w * (1 + z)) wave_spec_rest) lum_spec
                   wave_filter trans_filter
  /\ _obs_flux_ssp wave_spec_rest lum_spec wave_filter trans_filter 0
     = _rest_flux_ssp wave_spec_rest lum_spec wave_filter trans_filter
  /\ _calc_obs_mag_no_dimming wave_spec_rest lum_spec wave_filter
                              trans_filter 0
     = _calc_rest_mag wave_spec_rest lum_spec wave_filter trans_filter.
Proof.
  assert (H0 : _obs_flux_ssp wave_spec_rest lum_spec wave_filter
                             trans_filter 0
               = _rest_flux_ssp wave_spec_rest lum_spec wave_filter
                                trans_filter).
  { unfold _obs_flux_ssp, _rest_flux_ssp. now rewrite redshift0_wave. }
  repeat split.
  - exact H0.
  - unfold _calc_obs_mag_no_dimming, _calc_rest_mag. now rewrite H0.
Qed.

(** *** Batched evaluation against the triple loop *)

(** Mapping over an array is tabulating over its indices. *)
Lemma tabulate_nth {A B : Type} (f : A -> B) (d : A) (l : list A) :
  tabulate (length l) (fun i => f (nth i l d)) = map f l.
Proof.
  unfold tabulate.
  induction l as [| a l IH]; simpl; [reflexivity |].
  f_equal. rewrite <- seq_shift, map_map. exact IH.
Qed.

(** C2: on a luminosity array of shape [(n_met, n_age, n_wave)] and [n_gal]
    redshifts, [_calc_obs_mag_no_dimming_vmap] returns an array of shape
    [(n_met, n_age, n_gal)]; it is the array the triple loop over
    metallicity, age and galaxy builds from scalar calls, and its entry
    [(i, j, k)] is the scalar call on spectrum [(i, j)] and redshift [k]. *)
Theorem calc_obs_mag_no_dimming_vmap_loop (n_met n_age n_gal : nat)
  (wave_spec_rest : list R) (lum_spec : list (list (list R)))
  (wave_filter trans_filter z : list R) :
  shape2 n_met n_age lum_spec ->
  length z = n_gal ->
  let out := _calc_obs_mag_no_dimming_vmap wave_spec_rest lum_spec
                                           wave_filter trans_filter z in
  shape3 n_met n_age n_gal out
  /\ out = obs_mag_no_dimming_loop n_met n_age n_gal wave_spec_rest lum_spec
                                   wave_filter trans_filter z
  /\ forall i j k : nat,
       (i < n_met)%nat -> (j < n_age)%nat -> (k < n_gal)%nat ->
       at3 out i j k
       = Some (_calc_obs_mag_no_dimming wave_spec_rest
                 (nth j (nth i lum_spec []) []) wave_filter trans_filter
                 (nth k z 0)).
Proof.
  intros [Hmet Hage] Hgal out.
  assert (Hout : out = map (fun row =>
                   map (fun l => map (fun zk =>
                     _calc_obs_mag_no_dimming wave_spec_rest l wave_filter
                       trans_filter zk) z) row) lum_spec) by reflexivity.
  repeat split.
  - rewrite Hout, length_map. exact Hmet.
  - rewrite Hout, Forall_map.
    eapply Forall_impl; [| exact Hage].
    intros row Hrow. unfold shape2. rewrite length_map. split; [exact Hrow |].
    rewrite Forall_map, Forall_forall. intros l _. now rewrite length_map.
  - rewrite Hout. unfold obs_mag_no_dimming_loop.
    rewrite <- Hmet, <- Hgal.
    rewrite <- (tabulate_nth _ [] lum_spec).
    unfold tabulate. apply map_ext_in. intros i Hi.
    apply in_seq in Hi.
    assert (Hrow : length (nth i lum_spec []) = n_age).
    { rewrite Forall_forall in Hage. apply Hage, nth_In. lia. }
    rewrite <- Hrow.
    fold (tabulate (length (nth i lum_spec [])) (fun j =>
            map (fun k => _calc_obs_mag_no_dimming wave_spec_rest
                            (nth j (nth i lum_spec []) []) wave_filter
                            trans_filter (nth k z 0)) (seq 0 (length z)))).
    rewrite (tabulate_nth
               (fun l => map (fun k => _calc_obs_mag_no_dimming wave_spec_rest
                                         l wave_filter trans_filter
                                         (nth k z 0)) (seq 0 (length z)))
               [] (nth i lum_spec [])).
    apply map_ext. intros l.
    symmetry. apply (tabulate_nth _ 0 z).
  - intros i j k Hi Hj Hk. rewrite Hout. unfold at3.
    rewrite nth_error_map.
    rewrite (nth_error_nth' lum_spec []) by lia. simpl.
    assert (Hrow : length (nth i lum_spec []) = n_age).
    { rewrite Forall_forall in Hage. apply Hage, nth_In. lia. }
    rewrite nth_error_map.
    rewrite (nth_error_nth' (nth i lum_spec []) []) by lia. simpl.
    rewrite nth_error_map.
    rewrite (nth_error_nth' z 0) by lia. reflexivity.
Qed.

Lemma calc_obs_mag_no_dimming_vmap_loop_witness :
  let out := _calc_obs_mag_no_dimming_vmap
               [3000; 6000] [[[1; 1]; [2; 2]; [3; 3]]]
               [4000; 5000] [1; 1] [0; 0.5] in
  shape3 1 3 2 out
  /\ out = obs_mag_no_dimming_loop 1 3 2
             [3000; 6000] [[[1; 1]; [2; 2]; [3; 3]]]
             [4000; 5000] [1; 1] [0; 0.5]
  /\ forall i j k : nat,
       (i < 1)%nat -> (j < 3)%nat -> (k < 2)%nat ->
       at3 out i j k
       = Some (_calc_obs_mag_no_dimming [3000; 6000]
                 (nth j (nth i [[[1; 1]; [2; 2]; [3; 3]]] []) [])
                 [4000; 5000] [1; 1] (nth k [0; 0.5] 0)).
Proof.
  apply (calc_obs_mag_no_dimming_vmap_loop 1 3 2).
  - split; [reflexivity | repeat constructor].
  - reflexivity.
Defined.

(** *** Trapezoidal sums *)

Lemma sum_nonneg (l : list R) : Forall (fun a => 0 <= a) l -> 0 <= sum l.
Proof.
  induction 1 as [| a l Ha _ IH]; simpl; lra.
Qed.

Lemma sum_pos (l : list R) :
  Forall (fun a => 0 <= a) l -> Exists (fun a => 0 < a) l -> 0 < sum l.
Proof.
  intros Hall Hex. induction Hex as [a l Ha | a l _ IH]; simpl.
  - pose proof (sum_nonneg l (Forall_inv_tail Hall)) as Hs. lra.
  - pose proof (Forall_inv Hall) as Ha. simpl in Ha.
    specialize (IH (Forall_inv_tail Hall)). lra.
Qed.

Lemma sum_zero (l : list R) : Forall (fun a => a = 0) l -> sum l = 0.
Proof.
  induction 1 as [| a l Ha _ IH]; simpl; lra.
Qed.

Lemma sum_scale (c : R) (l : list R) : sum (map (Rmult c) l) = c * sum l.
Proof.
  induction l as [| a l IH]; simpl; [ring | rewrite IH; ring].
Qed.

Lemma trapz_terms_cons2 (y0 y1 x0 x1 : R) (y x : list R) :
  trapz_terms (y0 :: y1 :: y) (x0 :: x1 :: x)
  = (x1 - x0) * (y1 + y0) :: trapz_terms (y1 :: y) (x1 :: x).
Proof. reflexivity. Qed.

Lemma trapz_terms_scale (c : R) (y x : list R) :
  trapz_terms (map (Rmult c) y) x = map (Rmult c) (trapz_terms y x).
Proof.
  revert x. induction y as [| y0 y IH]; intros x; [reflexivity |].
  destruct y as [| y1 y]; [reflexivity |].
  destruct x as [| x0 [| x1 x]]; try reflexivity.
  change (map (Rmult c) (y0 :: y1 :: y))
    with (c * y0 :: map (Rmult c) (y1 :: y)).
  change (trapz_terms (y0 :: y1 :: y) (x0 :: x1 :: x))
    with ((x1 - x0) * (y1 + y0) :: trapz_terms (y1 :: y) (x1 :: x)).
  change (trapz_terms (c * y0 :: map (Rmult c) (y1 :: y)) (x0 :: x1 :: x))
    with ((x1 - x0) * (c * y1 + c * y0)
          :: trapz_terms (map (Rmult c) (y1 :: y)) (x1 :: x)).
  rewrite IH. simpl map. f_equal. ring.
Qed.

(** The trapezoidal rule is homogeneous in the integrand. *)
Lemma trapz_scale (c : R) (y x : list R) :
  trapz (map (Rmult c) y) x = c * trapz y x.
Proof.
  unfold trapz. rewrite trapz_terms_scale, sum_scale. ring.
Qed.

Lemma trapz_terms_nonneg (y x : list R) :
  increasing x -> Forall (fun a => 0 <= a) y ->
  Forall (fun a => 0 <= a) (trapz_terms y x).
Proof.
  revert x. induction y as [| y0 y IH]; intros x Hinc Hy; [constructor |].
  destruct y as [| y1 y]; [constructor |].
  destruct x as [| x0 [| x1 x]]; try (now constructor).
  rewrite trapz_terms_cons2.
  destruct Hinc as [Hlt Hinc].
  pose proof (Forall_inv Hy) as Hy0.
  pose proof (Forall_inv (Forall_inv_tail Hy)) as Hy1. simpl in Hy0, Hy1.
  constructor; [nra |].
  apply IH; [exact Hinc | exact (Forall_inv_tail Hy)].
Qed.

Lemma trapz_terms_pos (y x : list R) :
  length y = length x -> (2 <= length y)%nat ->
  increasing x -> Forall (fun a => 0 <= a) y -> Exists (fun a => 0 < a) y ->
  Exists (fun a => 0 < a) (trapz_terms y x).
Proof.
  revert x. induction y as [| y0 y IH]; intros x Hlen H2 Hinc Hy Hex.
  - simpl in H2. lia.
  - destruct y as [| y1 y]; [simpl in H2; lia |].
    destruct x as [| x0 [| x1 x]]; try discriminate.
    destruct Hinc as [Hlt Hinc].
    inversion Hy as [| ? ? Hy0 Hy']; subst.
    pose proof (Forall_inv Hy') as Hy1.
    change (trapz_terms (y0 :: y1 :: y) (x0 :: x1 :: x))
      with ((x1 - x0) * (y1 + y0) :: trapz_terms (y1 :: y) (x1 :: x)).
    inversion Hex as [? ? Hpos | ? ? Hex']; subst.
    + apply Exists_cons_hd. nra.
    + destruct y as [| y2 y].
      * apply Exists_cons_hd.
        inversion Hex' as [? ? Hpos | ? ? Hnil]; subst;
          [nra | inversion Hnil].
      * apply Exists_cons_tl. apply IH; try assumption.
        -- simpl in Hlen |- *. lia.
        -- simpl. lia.
Qed.

Lemma trapz_terms_zero (y x : list R) :
  Forall (fun a => a = 0) y -> Forall (fun a => a = 0) (trapz_terms y x).
Proof.
  revert x. induction y as [| y0 y IH]; intros x Hy; [constructor |].
  destruct y as [| y1 y]; [constructor |].
  destruct x as [| x0 [| x1 x]]; try (now constructor).
  rewrite trapz_terms_cons2.
  pose proof (Forall_inv Hy) as Hy0.
  pose proof (Forall_inv (Forall_inv_tail Hy)) as Hy1. simpl in Hy0, Hy1.
  constructor; [subst; ring |].
  apply IH. exact (Forall_inv_tail Hy).
Qed.

(** *** The AB zero-point flux *)

Lemma AB0_pos : 0 < AB0.
Proof. unfold AB0. lra. Qed.

Lemma div_nonneg (a w : R) : 0 <= a -> 0 < w -> 0 <= a / w.
Proof.
  intros Ha Hw. unfold Rdiv.
  apply Rmult_le_pos; [exact Ha | left; now apply Rinv_0_lt_compat].
Qed.

Lemma div_pos (a w : R) : 0 < a -> 0 < w -> 0 < a / w.
Proof.
  intros Ha Hw. unfold Rdiv.
  apply Rmult_lt_0_compat; [exact Ha | now apply Rinv_0_lt_compat].
Qed.

Lemma ab0_integrand_length (wave trans : list R) :
  length wave = length trans ->
  length (map2 Rdiv (map (fun t => t * AB0) trans) wave) = length wave.
Proof.
  revert wave. induction trans as [| t trans IH]; intros [| w wave] Hlen;
    try discriminate; [reflexivity |].
  simpl. f_equal. apply IH. now injection Hlen.
Qed.

Lemma ab0_integrand_nonneg (wave trans : list R) :
  Forall (fun w => 0 < w) wave -> Forall (fun t => 0 <= t) trans ->
  Forall (fun a => 0 <= a) (map2 Rdiv (map (fun t => t * AB0) trans) wave).
Proof.
  revert wave. induction trans as [| t trans IH]; intros [| w wave] Hw Ht;
    simpl; try constructor.
  - apply div_nonneg; [| exact (Forall_inv Hw)].
    pose proof (Forall_inv Ht) as H0. pose proof AB0_pos. simpl in H0. nra.
  - apply IH; [exact (Forall_inv_tail Hw) | exact (Forall_inv_tail Ht)].
Qed.

Lemma ab0_integrand_pos (wave trans : list R) :
  length wave = length trans ->
  Forall (fun w => 0 < w) wave -> Exists (fun t => 0 < t) trans ->
  Exists (fun a => 0 < a) (map2 Rdiv (map (fun t => t * AB0) trans) wave).
Proof.
  intros Hlen Hw Hex. revert wave Hlen Hw.
  induction Hex as [t trans Ht | t trans _ IH]; intros [| w wave] Hlen Hw;
    try discriminate; simpl.
  - apply Exists_cons_hd. apply div_pos; [| exact (Forall_inv Hw)].
    pose proof AB0_pos. nra.
  - apply Exists_cons_tl. apply IH; [now injection Hlen |].
    exact (Forall_inv_tail Hw).
Qed.

Lemma ab0_integrand_zero (wave trans : list R) :
  Forall (fun t => t = 0) trans ->
  Forall (fun a => a = 0) (map2 Rdiv (map (fun t => t * AB0) trans) wave).
Proof.
  revert wave. induction trans as [| t trans IH]; intros [| w wave] Ht;
    simpl; try constructor.
  - rewrite (Forall_inv Ht). unfold Rdiv. ring.
  - apply IH. exact (Forall_inv_tail Ht).
Qed.

(** A transmission curve without negative entries has a positive entry or
    is identically zero. *)
Lemma nonneg_pos_or_zero (trans : list R) :
  Forall (fun t => 0 <= t) trans ->
  Exists (fun t => 0 < t) trans \/ Forall (fun t => t = 0) trans.
Proof.
  induction 1 as [| t trans Ht _ [IH | IH]].
  - right. constructor.
  - left. now apply Exists_cons_tl.
  - destruct (Rle_lt_or_eq_dec 0 t Ht) as [Hpos | Hzero].
    + left. now apply Exists_cons_hd.
    + right. constructor; [now symmetry | exact IH].
Qed.

(** The all-zero transmission curve has zero-point flux zero. *)
Lemma flux_ab0_zero_filter (wave_filter trans_filter : list R) :
  Forall (fun t => t = 0) trans_filter ->
  _flux_ab0_at_10pc wave_filter trans_filter = 0.
Proof.
  intros Hz. unfold _flux_ab0_at_10pc, trapz.
  rewrite sum_zero; [ring |].
  apply trapz_terms_zero, ab0_integrand_zero, Hz.
Qed.

(** C6, as the code has it: on a valid filter curve the AB zero-point flux
    is never negative, and it is strictly positive exactly when some
    transmission value is strictly positive (for the identically zero
    transmission curve it is zero). *)
Theorem flux_ab0_at_10pc_positive (wave_filter trans_filter : list R) :
  valid_filter_curve wave_filter trans_filter ->
  0 <= _flux_ab0_at_10pc wave_filter trans_filter
  /\ (0 < _flux_ab0_at_10pc wave_filter trans_filter
      <-> Exists (fun t => 0 < t) trans_filter).
Proof.
  intros (Hlen & H2 & Hinc & Hw & Ht).
  pose proof (ab0_integrand_nonneg _ _ Hw Ht) as Hy.
  pose proof (trapz_terms_nonneg _ _ Hinc Hy) as Hterms.
  assert (Hpos : Exists (fun t => 0 < t) trans_filter ->
                 0 < _flux_ab0_at_10pc wave_filter trans_filter).
  { intros Hex. unfold _flux_ab0_at_10pc, trapz.
    apply Rmult_lt_0_compat; [lra |].
    apply sum_pos; [exact Hterms |].
    apply trapz_terms_pos; try assumption.
    - now apply ab0_integrand_length.
    - rewrite ab0_integrand_length by exact Hlen. exact H2.
    - now apply ab0_integrand_pos. }
  split; [| split; [| exact Hpos]].
  - unfold _flux_ab0_at_10pc, trapz.
    apply Rmult_le_pos; [lra | now apply sum_nonneg].
  - intros Hflux.
    destruct (nonneg_pos_or_zero _ Ht) as [Hex | Hzero]; [exact Hex |].
    rewrite (flux_ab0_zero_filter _ _ Hzero) in Hflux. lra.
Qed.

Lemma flux_ab0_at_10pc_positive_witness :
  0 <= _flux_ab0_at_10pc [4000; 5000] [1; 1]
  /\ (0 < _flux_ab0_at_10pc [4000; 5000] [1; 1]
      <-> Exists (fun t => 0 < t) [1; 1]).
Proof.
  apply (flux_ab0_at_10pc_positive [4000; 5000] [1; 1]).
  unfold valid_filter_curve. simpl.
  repeat split; try lia; try lra; repeat constructor; lra.
Defined.

(** C6 as stated fails on the valid filter curve with wavelengths
    [4000, 5000] and transmissions [0, 0]: its zero-point flux is 0, which
    is not strictly positive. *)
Lemma flux_ab0_at_10pc_zero_curve :
  valid_filter_curve [4000; 5000] [0; 0]
  /\ ~ 0 < _flux_ab0_at_10pc [4000; 5000] [0; 0].
Proof.
  split.
  - unfold valid_filter_curve. simpl.
    repeat split; try lia; try lra; repeat constructor; lra.
  - rewrite flux_ab0_zero_filter by (repeat constructor). lra.
Qed.

(** *** Rescaling the transmission *)

Lemma source_integrand_scale (c : R) (trans lum wave : list R) :
  map2 Rdiv (map2 Rmult (map (Rmult c) trans) lum) wave
  = map (Rmult c) (map2 Rdiv (map2 Rmult trans lum) wave).
Proof.
  revert lum wave.
  induction trans as [| t trans IH]; intros [| l lum] [| w wave];
    try reflexivity.
  simpl. rewrite IH. f_equal. unfold Rdiv. ring.
Qed.

Lemma ab0_integrand_scale (c : R) (trans wave : list R) :
  map2 Rdiv (map (fun t => t * AB0) (map (Rmult c) trans)) wave
  = map (Rmult c) (map2 Rdiv (map (fun t => t * AB0) trans) wave).
Proof.
  revert wave.
  induction trans as [| t trans IH]; intros [| w wave]; try reflexivity.
  simpl. rewrite IH. f_equal. unfold Rdiv. ring.
Qed.

(** Both flux integrals are linear in the transmission. *)
Lemma rest_flux_ssp_scale (c : R)
  (wave_spec_rest lum_spec wave_filter trans_filter : list R) :
  _rest_flux_ssp wave_spec_rest lum_spec wave_filter
                 (map (Rmult c) trans_filter)
  = c * _rest_flux_ssp wave_spec_rest lum_spec wave_filter trans_filter.
Proof.
  unfold _rest_flux_ssp. cbv zeta.
  now rewrite source_integrand_scale, trapz_scale.
Qed.

Lemma flux_ab0_at_10pc_scale (c : R) (wave_filter trans_filter : list R) :
  _flux_ab0_at_10pc wave_filter (map (Rmult c) trans_filter)
  = c * _flux_ab0_at_10pc wave_filter trans_filter.
Proof.
  unfold _flux_ab0_at_10pc. cbv zeta.
  now rewrite ab0_integrand_scale, trapz_scale.
Qed.

Lemma ratio_scale (c a b : R) : c <> 0 -> (c * a) / (c * b) = a / b.
Proof.
  intros Hc. unfold Rdiv. rewrite Rinv_mult.
  replace (c * a * (/ c * / b)) with (c * / c * (a * / b)) by ring.
  rewrite Rinv_r by exact Hc. ring.
Qed.

(** C10: rescaling the filter transmission by a positive constant [c]
    leaves [_calc_rest_mag] unchanged, for every spectrum and filter
    curve. *)
Theorem calc_rest_mag_trans_scale_invariant (c : R)
  (wave_spec_rest lum_spec wave_filter trans_filter : list R) :
  0 < c ->
  _calc_rest_mag wave_spec_rest lum_spec wave_filter
                 (map (Rmult c) trans_filter)
  = _calc_rest_mag wave_spec_rest lum_spec wave_filter trans_filter.
Proof.
  intros Hc. unfold _calc_rest_mag. cbv zeta.
  rewrite rest_flux_ssp_scale, flux_ab0_at_10pc_scale.
  rewrite ratio_scale by lra. reflexivity.
Qed.

Lemma calc_rest_mag_trans_scale_invariant_witness :
  _calc_rest_mag [3000; 6000] [1; 1] [4000; 5000] (map (Rmult 2) [1; 0.5])
  = _calc_rest_mag [3000; 6000] [1; 1] [4000; 5000] [1; 0.5].
Proof.
  apply (calc_rest_mag_trans_scale_invariant 2). lra.
Defined.

(** *** Spectra that miss the filter, and a worked integral *)

(** Outside the knots, [jnp.interp] with [left = right = 0] returns 0. *)
Lemma interp1_outside (x x0 f0 : R) (xp fp : list R) :
  x < x0 \/ x > last (x0 :: xp) x0 ->
  interp1 x (x0 :: xp) (f0 :: fp) 0 0 = 0.
Proof.
  intros Hout. unfold interp1, where_.
  destruct (Rgt_dec x (last (x0 :: xp) x0)) as [Hgt | Hngt]; [reflexivity |].
  destruct (Rlt_dec x x0) as [Hlt | Hnlt]; [reflexivity |].
  destruct Hout; contradiction.
Qed.

Lemma source_integrand_zero (trans lum wave : list R) :
  Forall (fun l => l = 0) lum ->
  Forall (fun a => a = 0) (map2 Rdiv (map2 Rmult trans lum) wave).
Proof.
  intros Hl. revert trans wave.
  induction Hl as [| l lum Hl0 _ IH]; intros [| t trans] [| w wave];
    simpl; try constructor.
  - subst. unfold Rdiv. ring.
  - apply IH.
Qed.

(** A spectrum whose wavelength range contains no filter wavelength
    contributes no flux. *)
Lemma rest_flux_ssp_no_overlap (x0 f0 : R) (xp fp : list R)
  (wave_filter trans_filter : list R) :
  Forall (fun w => w < x0 \/ w > last (x0 :: xp) x0) wave_filter ->
  _rest_flux_ssp (x0 :: xp) (f0 :: fp) wave_filter trans_filter = 0.
Proof.
  intros Hout. unfold _rest_flux_ssp, trapz. cbv zeta.
  rewrite sum_zero; [ring |].
  apply trapz_terms_zero, source_integrand_zero.
  unfold interp. rewrite Forall_map.
  eapply Forall_impl; [| exact Hout].
  intros w Hw. now apply interp1_outside.
Qed.

(** A flat spectrum of luminosity 1 on [3000, 6000] through a flat filter
    of transmission 1 on the grid [4000, 5000]: the trapezoid
    [0.5 * 1000 * (1/5000 + 1/4000)]. *)
Example rest_flux_ssp_flat :
  _rest_flux_ssp [3000; 6000] [1; 1] [4000; 5000] [1; 1] = 0.225.
Proof.
  unfold _rest_flux_ssp, trapz, interp, interp1, interp_go. simpl.
  case_where; lra.
Qed.

Example flux_ab0_at_10pc_flat :
  _flux_ab0_at_10pc [4000; 5000] [1; 1] = 0.225 * AB0.
Proof.
  unfold _flux_ab0_at_10pc, trapz. simpl. lra.
Qed.

(** *** Degenerate flux ratios *)

Lemma flux_ab0_nonneg (wave_filter trans_filter : list R) :
  valid_filter_curve wave_filter trans_filter ->
  0 <= _flux_ab0_at_10pc wave_filter trans_filter.
Proof.
  intros (_ & _ & Hinc & Hw & Ht). unfold _flux_ab0_at_10pc, trapz.
  apply Rmult_le_pos; [lra |]. apply sum_nonneg.
  apply trapz_terms_nonneg; [exact Hinc |].
  now apply ab0_integrand_nonneg.
Qed.

Lemma flux_ab0_pos (wave_filter trans_filter : list R) :
  valid_filter_curve wave_filter trans_filter ->
  Exists (fun t => 0 < t) trans_filter ->
  0 < _flux_ab0_at_10pc wave_filter trans_filter.
Proof.
  intros (Hlen & H2 & Hinc & Hw & Ht) Hex. unfold _flux_ab0_at_10pc, trapz.
  apply Rmult_lt_0_compat; [lra |].
  apply sum_pos.
  - apply trapz_terms_nonneg; [exact Hinc |]. now apply ab0_integrand_nonneg.
  - apply trapz_terms_pos; try assumption.
    + now apply ab0_integrand_length.
    + rewrite ab0_integrand_length by exact Hlen. exact H2.
    + now apply ab0_integrand_nonneg.
    + now apply ab0_integrand_pos.
Qed.

Lemma neg25_inf : Ieee.xmul (Ieee.Fin (-2.5)) Ieee.NInf = Ieee.PInf.
Proof.
  unfold Ieee.xmul, Ieee.inf_of_sign.
  destruct (Rlt_dec 0 (- -2.5)) as [_ | H]; [reflexivity | lra].
Qed.

(** Zero flux through a filter of positive zero-point flux: the magnitude
    is plus infinity. *)
Lemma ieee_calc_rest_mag_zero_flux
  (wave_spec_rest lum_spec wave_filter trans_filter : list R) :
  _rest_flux_ssp wave_spec_rest lum_spec wave_filter trans_filter = 0 ->
  0 < _flux_ab0_at_10pc wave_filter trans_filter ->
  Ieee._calc_rest_mag wave_spec_rest lum_spec wave_filter trans_filter
  = Ieee.PInf.
Proof.
  intros HF HA. unfold Ieee._calc_rest_mag. cbv zeta. rewrite HF.
  unfold Ieee.xdiv.
  destruct (Req_dec_T (_flux_ab0_at_10pc wave_filter trans_filter) 0)
    as [He | _]; [lra |].
  replace (0 / _flux_ab0_at_10pc wave_filter trans_filter) with 0
    by (unfold Rdiv; ring).
  unfold Ieee.xlog10.
  destruct (Rlt_dec 0 0) as [H | _]; [lra |].
  apply neg25_inf.
Qed.

(** Where the flux ratio is positive no special value arises, and the two
    embeddings of [_calc_rest_mag] agree. *)
Lemma ieee_calc_rest_mag_finite
  (wave_spec_rest lum_spec wave_filter trans_filter : list R) :
  _flux_ab0_at_10pc wave_filter trans_filter <> 0 ->
  0 < _rest_flux_ssp wave_spec_rest lum_spec wave_filter trans_filter
      / _flux_ab0_at_10pc wave_filter trans_filter ->
  Ieee._calc_rest_mag wave_spec_rest lum_spec wave_filter trans_filter
  = Ieee.Fin (_calc_rest_mag wave_spec_rest lum_spec wave_filter
                             trans_filter).
Proof.
  intros HA Hr. unfold Ieee._calc_rest_mag, _calc_rest_mag. cbv zeta.
  unfold Ieee.xdiv.
  destruct (Req_dec_T (_flux_ab0_at_10pc wave_filter trans_filter) 0)
    as [He | _]; [contradiction |].
  unfold Ieee.xlog10.
  destruct (Rlt_dec 0 _) as [_ | Hn]; [reflexivity | contradiction].
Qed.

(** C9: for every valid filter curve and every spectrum whose flux through
    the filter is zero or negative, [_calc_rest_mag] returns plus infinity
    or NaN; it is a value of the float pipeline, not an error.  When the
    flux is zero, as for a spectrum that misses the filter, and some
    transmission is positive, the value is plus infinity. *)
Theorem calc_rest_mag_degenerate
  (wave_spec_rest lum_spec wave_filter trans_filter : list R) :
  valid_filter_curve wave_filter trans_filter ->
  _rest_flux_ssp wave_spec_rest lum_spec wave_filter trans_filter <= 0 ->
  (Ieee._calc_rest_mag wave_spec_rest lum_spec wave_filter trans_filter
   = Ieee.PInf
   \/ Ieee._calc_rest_mag wave_spec_rest lum_spec wave_filter trans_filter
      = Ieee.NaN)
  /\ (_rest_flux_ssp wave_spec_rest lum_spec wave_filter trans_filter = 0 ->
      Exists (fun t => 0 < t) trans_filter ->
      Ieee._calc_rest_mag wave_spec_rest lum_spec wave_filter trans_filter
      = Ieee.PInf).
Proof.
  intros Hvalid HF.
  pose proof (flux_ab0_nonneg _ _ Hvalid) as HA.
  split.
  - unfold Ieee._calc_rest_mag. cbv zeta.
    set (F := _rest_flux_ssp wave_spec_rest lum_spec wave_filter
                             trans_filter) in *.
    set (A := _flux_ab0_at_10pc wave_filter trans_filter) in *.
    unfold Ieee.xdiv.
    destruct (Req_dec_T A 0) as [HA0 | HA0].
    + right. unfold Ieee.inf_of_sign.
      destruct (Rlt_dec 0 F) as [H | _]; [lra |].
      destruct (Rlt_dec F 0); reflexivity.
    + assert (Hr : F / A <= 0).
      { unfold Rdiv.
        assert (0 < / A) by (apply Rinv_0_lt_compat; lra). nra. }
      unfold Ieee.xlog10.
      destruct (Rlt_dec 0 (F / A)) as [H | _]; [lra |].
      destruct (Rlt_dec (F / A) 0).
      * right. reflexivity.
      * left. apply neg25_inf.
  - intros HF0 Hex. apply ieee_calc_rest_mag_zero_flux; [exact HF0 |].
    now apply flux_ab0_pos.
Qed.

Lemma calc_rest_mag_degenerate_witness :
  (Ieee._calc_rest_mag [1000; 2000] [1; 1] [4000; 5000] [1; 1] = Ieee.PInf
   \/ Ieee._calc_rest_mag [1000; 2000] [1; 1] [4000; 5000] [1; 1]
      = Ieee.NaN)
  /\ (_rest_flux_ssp [1000; 2000] [1; 1] [4000; 5000] [1; 1] = 0 ->
      Exists (fun t => 0 < t) [1; 1] ->
      Ieee._calc_rest_mag [1000; 2000] [1; 1] [4000; 5000] [1; 1]
      = Ieee.PInf).
Proof.
  apply (calc_rest_mag_degenerate [1000; 2000] [1; 1] [4000; 5000] [1; 1]).
  - unfold valid_filter_curve. simpl.
    repeat split; try lia; try lra; repeat constructor; lra.
  - rewrite rest_flux_ssp_no_overlap; [lra |].
    repeat constructor; simpl; lra.
Defined.

(** A spectrum on [1000, 2000] seen through a filter on [4000, 5000]:
    the magnitude is plus infinity. *)
Example calc_rest_mag_missed_filter :
  Ieee._calc_rest_mag [1000; 2000] [1; 1] [4000; 5000] [1; 1] = Ieee.PInf.
Proof.
  apply ieee_calc_rest_mag_zero_flux.
  - apply rest_flux_ssp_no_overlap. repeat constructor; simpl; lra.
  - rewrite flux_ab0_at_10pc_flat. pose proof AB0_pos. lra.
Qed.

(** A negative flux through the same filter: the magnitude is NaN. *)
Example calc_rest_mag_negative_flux :
  Ieee._calc_rest_mag [3000; 6000] [-1; -1] [4000; 5000] [1; 1] = Ieee.NaN.
Proof.
  assert (HF : _rest_flux_ssp [3000; 6000] [-1; -1] [4000; 5000] [1; 1]
               = -0.225).
  { unfold _rest_flux_ssp, trapz, interp, interp1, interp_go. simpl.
    case_where; lra. }
  unfold Ieee._calc_rest_mag. cbv zeta.
  rewrite HF, flux_ab0_at_10pc_flat.
  unfold Ieee.xdiv. pose proof AB0_pos as HA.
  destruct (Req_dec_T (0.225 * AB0) 0) as [He | _]; [lra |].
  assert (Hr : -0.225 / (0.225 * AB0) < 0).
  { unfold Rdiv.
    assert (0 < / (0.225 * AB0)) by (apply Rinv_0_lt_compat; lra). nra. }
  unfold Ieee.xlog10.
  destruct (Rlt_dec 0 (-0.225 / (0.225 * AB0))) as [H | _]; [lra |].
  destruct (Rlt_dec (-0.225 / (0.225 * AB0)) 0) as [_ | H];
    [reflexivity | contradiction].
Qed.

End PhotometryFacts.

(** * Further properties of the dust kernels *)

Module DustLaws.
Import Arr Dust Photometry DustFacts PhotometryFacts.

Lemma ln10_pos : 0 < ln 10.
Proof. rewrite <- ln_1. apply ln_increasing; lra. Qed.

Lemma exp_le (x y : R) : x <= y -> exp x <= exp y.
Proof.
  intros [Hlt | Heq]; [left; now apply exp_increasing | subst; lra].
Qed.

(** [10 ** y] is positive, and non-decreasing in [y]. *)
Lemma pow10_pos (y : R) : 0 < Rpower 10 y.
Proof. unfold Rpower. apply exp_pos. Qed.

Lemma pow10_le (y1 y2 : R) : y1 <= y2 -> Rpower 10 y1 <= Rpower 10 y2.
Proof.
  intros Hy. unfold Rpower. apply exp_le.
  pose proof ln10_pos. nra.
Qed.

Lemma pow10_0 : Rpower 10 0 = 1.
Proof. unfold Rpower. rewrite Rmult_0_l. apply exp_0. Qed.

Lemma attenuated_fraction_le_1 (axEbv rv av : R) :
  Rpower 10 (-0.4 * _attenuation_curve axEbv rv av) <= 1.
Proof.
  rewrite <- pow10_0. apply pow10_le.
  assert (0 <= _attenuation_curve axEbv rv av)
    by (unfold _attenuation_curve; rewrite clip0_Rmax; apply Rmax_l).
  lra.
Qed.

(** X1: the transmitted fraction is a fraction: for [rv <> 0] and
    [frac_unobscured] in [0, 1] it is a finite number, strictly positive,
    at least [frac_unobscured] and at most 1, whatever the reddening and
    [av]. *)
Theorem flux_ratio_range (axEbv rv av frac_unobscured : R) :
  rv <> 0 ->
  0 <= frac_unobscured <= 1 ->
  Ieee._flux_ratio (Ieee.Fin axEbv) (Ieee.Fin rv) (Ieee.Fin av)
                   (Ieee.Fin frac_unobscured)
  = Ieee.Fin (_flux_ratio axEbv rv av frac_unobscured)
  /\ 0 < _flux_ratio axEbv rv av frac_unobscured
  /\ frac_unobscured <= _flux_ratio axEbv rv av frac_unobscured <= 1.
Proof.
  intros Hrv [H0 H1].
  split; [now apply ieee_flux_ratio_finite |].
  unfold _flux_ratio. cbv zeta.
  pose proof (attenuated_fraction_le_1 axEbv rv av) as Hle.
  pose proof (pow10_pos (-0.4 * _attenuation_curve axEbv rv av)) as Hpos.
  repeat split; nra.
Qed.

Lemma flux_ratio_range_witness :
  Ieee._flux_ratio (Ieee.Fin 10) (Ieee.Fin 4.05) (Ieee.Fin 1)
                   (Ieee.Fin 0.25)
  = Ieee.Fin (_flux_ratio 10 4.05 1 0.25)
  /\ 0 < _flux_ratio 10 4.05 1 0.25
  /\ 0.25 <= _flux_ratio 10 4.05 1 0.25 <= 1.
Proof. apply (flux_ratio_range 10 4.05 1 0.25); lra. Defined.

(** The attenuation grows with [av] when the reddening is not negative and
    [rv] is positive. *)
Lemma attenuation_curve_monotone_av (axEbv rv av1 av2 : R) :
  0 <= axEbv -> 0 < rv -> av1 <= av2 ->
  _attenuation_curve axEbv rv av1 <= _attenuation_curve axEbv rv av2.
Proof.
  intros Ha Hr Hav.
  assert (Hk : av1 * axEbv / rv <= av2 * axEbv / rv).
  { unfold Rdiv. pose proof (Rinv_0_lt_compat rv Hr) as Hinv.
    apply Rmult_le_compat_r; [lra | nra]. }
  unfold _attenuation_curve. cbv zeta. case_where; lra.
Qed.

(** X2: more dust never transmits more: for [axEbv >= 0], [rv > 0] and
    [frac_unobscured <= 1], [_flux_ratio] is non-increasing in [av]. *)
Theorem flux_ratio_antitone_av (axEbv rv av1 av2 frac_unobscured : R) :
  0 <= axEbv -> 0 < rv -> frac_unobscured <= 1 -> av1 <= av2 ->
  _flux_ratio axEbv rv av2 frac_unobscured
  <= _flux_ratio axEbv rv av1 frac_unobscured.
Proof.
  intros Ha Hr HF Hav. unfold _flux_ratio. cbv zeta.
  pose proof (attenuation_curve_monotone_av axEbv rv av1 av2 Ha Hr Hav) as Hm.
  assert (Hp : Rpower 10 (-0.4 * _attenuation_curve axEbv rv av2)
               <= Rpower 10 (-0.4 * _attenuation_curve axEbv rv av1))
    by (apply pow10_le; lra).
  nra.
Qed.

Lemma flux_ratio_antitone_av_witness :
  _flux_ratio 10 4.05 2 0 <= _flux_ratio 10 4.05 1 0.
Proof. apply (flux_ratio_antitone_av 10 4.05 1 2 0); lra. Defined.

Lemma attenuation_curve_clipped (axEbv rv av : R) :
  av * axEbv / rv <= 0 -> _attenuation_curve axEbv rv av = 0.
Proof.
  intros Hneg. unfold _attenuation_curve. cbv zeta. case_where; lra.
Qed.

(** X3: without dust nothing is absorbed: for [rv <> 0], at [av = 0] and
    likewise for every [av] that makes [av * axEbv / rv] negative, the
    transmitted fraction is exactly 1. *)
Theorem flux_ratio_clipped (axEbv rv av frac_unobscured : R) :
  rv <> 0 ->
  av * axEbv / rv <= 0 ->
  Ieee._flux_ratio (Ieee.Fin axEbv) (Ieee.Fin rv) (Ieee.Fin av)
                   (Ieee.Fin frac_unobscured)
  = Ieee.Fin 1
  /\ _flux_ratio axEbv rv av frac_unobscured = 1.
Proof.
  intros Hrv Hneg.
  assert (H1 : _flux_ratio axEbv rv av frac_unobscured = 1).
  { unfold _flux_ratio. cbv zeta.
    rewrite (attenuation_curve_clipped _ _ _ Hneg).
    replace (-0.4 * 0) with 0 by ring. rewrite pow10_0. ring. }
  split; [| exact H1].
  rewrite ieee_flux_ratio_finite by exact Hrv. now rewrite H1.
Qed.

Lemma flux_ratio_clipped_witness :
  (Ieee._flux_ratio (Ieee.Fin 10) (Ieee.Fin 4.05) (Ieee.Fin 0)
                    (Ieee.Fin 0.25)
   = Ieee.Fin 1
   /\ _flux_ratio 10 4.05 0 0.25 = 1)
  /\ (Ieee._flux_ratio (Ieee.Fin 10) (Ieee.Fin 4.05) (Ieee.Fin (-3))
                       (Ieee.Fin 0.25)
      = Ieee.Fin 1
      /\ _flux_ratio 10 4.05 (-3) 0.25 = 1).
Proof.
  split.
  - apply (flux_ratio_clipped 10 4.05 0 0.25); lra.
  - apply (flux_ratio_clipped 10 4.05 (-3) 0.25); lra.
Defined.

(** *** The Drude bump *)

Lemma sq_pos (x : R) : x <> 0 -> 0 < x ^ 2.
Proof.
  intros Hx. destruct (Rtotal_order x 0) as [H | [H | H]]; [| contradiction |];
    simpl; nra.
Qed.

(** X4: for [x] and [gamma] both nonzero and a non-negative amplitude the bump
    lies between 0 and [ampl], and it reaches [ampl] at the centre
    [x = x0]. *)
Theorem drude_bump_bounds (x x0 gamma ampl : R) :
  x <> 0 -> gamma <> 0 -> 0 <= ampl ->
  0 <= drude_bump x x0 gamma ampl <= ampl
  /\ (x = x0 -> drude_bump x x0 gamma ampl = ampl).
Proof.
  intros Hx Hg Ha. unfold drude_bump. cbv zeta.
  set (a := x ^ 2 * gamma ^ 2).
  set (b := (x ^ 2 - x0 ^ 2) ^ 2).
  assert (Hapos : 0 < a).
  { unfold a. apply Rmult_lt_0_compat; apply sq_pos; assumption. }
  assert (Hb : 0 <= b) by (unfold b; apply pow2_ge_0).
  assert (Hfrac : 0 <= a / (b + a) <= 1).
  { split.
    - apply div_nonneg; lra.
    - apply (Rmult_le_reg_r (b + a)); [lra |].
      unfold Rdiv. rewrite Rmult_assoc, Rinv_l by lra. lra. }
  split; [nra |].
  intros Heq. subst x0.
  assert (Hb0 : b = 0) by (unfold b; ring).
  rewrite Hb0, Rplus_0_l. unfold Rdiv. rewrite Rinv_r by lra. ring.
Qed.

Lemma drude_bump_bounds_witness :
  0 <= drude_bump 0.2 0.2175 0.035 3 <= 3
  /\ (0.2 = 0.2175 -> drude_bump 0.2 0.2175 0.035 3 = 3).
Proof. apply (drude_bump_bounds 0.2 0.2175 0.035 3); lra. Defined.

(** *** Noll09 against Salim18 *)

(** The power law is normalised in the V band: at 0.55 microns it is 1 for
    every slope. *)
Lemma power_law_vband_norm_at_V (slope : R) :
  power_law_vband_norm 0.55 slope = 1.
Proof.
  unfold power_law_vband_norm, Rpower.
  replace (0.55 / 0.55) with 1 by lra.
  rewrite ln_1, Rmult_0_r. apply exp_0.
Qed.

(** X5: the two models differ only through the bump: with [ampl = 0] they
    agree at every wavelength and for every slope. *)
Theorem noll09_eq_sbl18_no_bump (x x0 gamma slope : R) :
  noll09_k_lambda x x0 gamma 0 slope = sbl18_k_lambda x x0 gamma 0 slope.
Proof.
  unfold noll09_k_lambda, sbl18_k_lambda. cbv zeta.
  assert (Hd : drude_bump x x0 gamma 0 = 0) by (unfold drude_bump; ring).
  rewrite Hd, Rplus_0_r, Rplus_0_r. reflexivity.
Qed.

(** X6: at the V-band pivot, 0.55 microns, the two models agree for every
    bump and every slope. *)
Theorem noll09_eq_sbl18_at_V (x0 gamma ampl slope : R) :
  noll09_k_lambda 0.55 x0 gamma ampl slope
  = sbl18_k_lambda 0.55 x0 gamma ampl slope.
Proof.
  unfold noll09_k_lambda, sbl18_k_lambda. cbv zeta.
  rewrite power_law_vband_norm_at_V.
  set (base := _l02_below_c00_above 0.55 0.15).
  set (bump := drude_bump 0.55 x0 gamma ampl).
  replace ((base + bump) * 1) with (base * 1 + bump) by ring.
  reflexivity.
Qed.

(** X7: where neither curve is clipped, Salim18 exceeds Noll09 by the bump
    times [1 - (x/0.55)^slope]. *)
Theorem sbl18_minus_noll09 (x x0 gamma ampl slope : R) :
  0 <= (_l02_below_c00_above x 0.15 + drude_bump x x0 gamma ampl)
       * power_law_vband_norm x slope ->
  0 <= _l02_below_c00_above x 0.15 * power_law_vband_norm x slope
       + drude_bump x x0 gamma ampl ->
  sbl18_k_lambda x x0 gamma ampl slope - noll09_k_lambda x x0 gamma ampl slope
  = drude_bump x x0 gamma ampl * (1 - power_law_vband_norm x slope).
Proof.
  intros Hn Hs. unfold noll09_k_lambda, sbl18_k_lambda. cbv zeta.
  rewrite !where_false by lra. ring.
Qed.

(** Neither model ever returns a negative reddening, whatever the
    wavelength and the parameters. *)
Theorem noll09_sbl18_nonneg (x x0 gamma ampl slope : R) :
  0 <= noll09_k_lambda x x0 gamma ampl slope
  /\ 0 <= sbl18_k_lambda x x0 gamma ampl slope.
Proof.
  unfold noll09_k_lambda, sbl18_k_lambda. cbv zeta.
  rewrite !clip0_Rmax. split; apply Rmax_l.
Qed.

(** *** Shape of the Calzetti00 curve *)

Lemma calzetti00_uv_branch (x rv : R) :
  x < 0.63 ->
  calzetti00_k_lambda x rv
  = 2.659 * (-2.156 + 1.509 * / x - 0.198 * (/ x) ^ 2 + 0.011 * (/ x) ^ 3)
    + rv.
Proof.
  intros Hx. unfold calzetti00_k_lambda. cbv zeta.
  rewrite where_true by lra.
  unfold Rdiv. rewrite !pow_inv. ring.
Qed.

Lemma calzetti00_red_branch (x rv : R) :
  0.63 <= x ->
  calzetti00_k_lambda x rv = 2.659 * (-1.857 + 1.040 * / x) + rv.
Proof.
  intros Hx. unfold calzetti00_k_lambda. cbv zeta.
  rewrite where_false by lra.
  unfold Rdiv. ring.
Qed.

(** X8: on each of its two branches the Calzetti00 curve falls strictly with
    wavelength: for [0 < x < y < 0.63], and for [0.63 <= x < y]. *)
Theorem calzetti00_decreasing (x y rv : R) :
  (0 < x /\ y < 0.63) \/ 0.63 <= x ->
  x < y ->
  calzetti00_k_lambda y rv < calzetti00_k_lambda x rv.
Proof.
  intros Hdom Hxy.
  assert (Hx : 0 < x) by (destruct Hdom; lra).
  assert (Hinv : / y < / x) by (apply Rinv_lt_contravar; nra).
  assert (Hv : 0 < / y) by (apply Rinv_0_lt_compat; lra).
  destruct Hdom as [[_ Hy] | H63].
  - rewrite !calzetti00_uv_branch by lra.
    set (u := / x) in *. set (v := / y) in *.
    assert (Hq : 0 < 1.509 - 0.198 * (u + v)
                     + 0.011 * (u * u + u * v + v * v)).
    { pose proof (pow2_ge_0 (u + v - 12)) as H1.
      pose proof (pow2_ge_0 (u - v)) as H2. simpl in H1, H2. nra. }
    assert (Hd : 0 < (u - v) * (1.509 - 0.198 * (u + v)
                                + 0.011 * (u * u + u * v + v * v)))
      by (apply Rmult_lt_0_compat; lra).
    simpl. nra.
  - rewrite !calzetti00_red_branch by lra. lra.
Qed.

Lemma calzetti00_decreasing_witness :
  calzetti00_k_lambda 0.5 4.05 < calzetti00_k_lambda 0.2 4.05
  /\ calzetti00_k_lambda 2 4.05 < calzetti00_k_lambda 1 4.05.
Proof.
  split.
  - apply (calzetti00_decreasing 0.2 0.5 4.05); [left |]; lra.
  - apply (calzetti00_decreasing 1 2 4.05); [right |]; lra.
Defined.

(** *** The triweight curve and the amplitude helper *)

(** The triweight approximation is strictly positive at every wavelength,
    for every parameter choice and whatever [_tw_sig_slope] returns. *)
Theorem triweight_k_lambda_pos
  (tw_sig_slope : R -> R -> R -> R -> R -> R -> R -> R)
  (x_micron xtp ytp x0 tw_h lo hi : R) :
  0 < triweight_k_lambda tw_sig_slope x_micron xtp ytp x0 tw_h lo hi
  /\ 0 < triweight_k_lambda_default tw_sig_slope x_micron.
Proof.
  unfold triweight_k_lambda_default, triweight_k_lambda.
  split; apply pow10_pos.
Qed.

Lemma log10_neg (a : R) : 0 < a < 1 -> log10 a < 0.
Proof.
  intros [H0 H1]. unfold log10, Rdiv.
  assert (Hln : ln a < 0) by (rewrite <- ln_1; now apply ln_increasing).
  pose proof (Rinv_0_lt_compat _ ln10_pos). nra.
Qed.

Lemma log10_pos (a : R) : 1 < a -> 0 < log10 a.
Proof.
  intros H1. unfold log10, Rdiv.
  assert (Hln : 0 < ln a) by (rewrite <- ln_1; apply ln_increasing; lra).
  pose proof (Rinv_0_lt_compat _ ln10_pos). nra.
Qed.

(** X9: the attenuation amplitude has the sign of the inclined optical depth
    [tau_v / cosi]: positive depth gives [Av > 0], negative depth
    [Av < 0]. *)
Theorem attentuation_amplitude_sign
  (logsm logssfr tau_mstar tau_ssfr tau_norm cosi : R) :
  let x := _get_optical_depth_V logsm logssfr tau_mstar tau_ssfr tau_norm
           / cosi in
  let Av := _get_attentuation_amplitude logsm logssfr tau_mstar tau_ssfr
                                        tau_norm cosi in
  (0 < x -> 0 < Av) /\ (x < 0 -> Av < 0).
Proof.
  intros x Av. unfold Av, _get_attentuation_amplitude. cbv zeta. fold x.
  assert (Hexp : x <> 0 -> 1 - exp (- x) < x).
  { intros Hx. pose proof (exp_ineq1 (- x)) as H. lra. }
  split; intros Hx.
  - assert (He : exp (- x) < 1)
      by (rewrite <- exp_0; apply exp_increasing; lra).
    assert (Hl : 0 < (1 - exp (- x)) / x < 1).
    { split; [apply div_pos; lra |].
      apply (Rmult_lt_reg_r x); [lra |].
      unfold Rdiv. rewrite Rmult_assoc, Rinv_l by lra.
      specialize (Hexp ltac:(lra)). lra. }
    pose proof (log10_neg _ Hl). lra.
  - assert (He : 1 < exp (- x))
      by (rewrite <- exp_0; apply exp_increasing; lra).
    assert (Hl : 1 < (1 - exp (- x)) / x).
    { replace ((1 - exp (- x)) / x) with ((exp (- x) - 1) / (- x))
        by (field; lra).
      apply (Rmult_lt_reg_r (- x)); [lra |].
      unfold Rdiv. rewrite Rmult_assoc, Rinv_l by lra.
      specialize (Hexp ltac:(lra)). lra. }
    pose proof (log10_pos _ Hl). lra.
Qed.

Lemma attentuation_amplitude_sign_witness :
  0 < _get_attentuation_amplitude 10 (-10) 0 0 1 1
  /\ _get_attentuation_amplitude 10 (-10) 0 0 (-1) 1 < 0.
Proof.
  split.
  - apply (proj1 (attentuation_amplitude_sign 10 (-10) 0 0 1 1)).
    unfold _get_optical_depth_V. lra.
  - apply (proj2 (attentuation_amplitude_sign 10 (-10) 0 0 (-1) 1)).
    unfold _get_optical_depth_V. lra.
Defined.

(** *** The effective wavelength of a filter *)

(** Every entry of a strictly increasing axis lies between its first and
    its last. *)
Lemma last_nonempty (a : R) (l : list R) (d d' : R) :
  last (a :: l) d = last (a :: l) d'.
Proof.
  revert a. induction l as [| b l IH]; intros a; [reflexivity |].
  change (last (a :: b :: l) d) with (last (b :: l) d).
  change (last (a :: b :: l) d') with (last (b :: l) d').
  apply IH.
Qed.

Lemma increasing_bounds (l : list R) (x0 : R) :
  increasing (x0 :: l) ->
  Forall (fun x => x0 <= x <= last (x0 :: l) x0) (x0 :: l).
Proof.
  revert x0. induction l as [| x1 l IH]; intros x0 Hinc.
  - constructor; [simpl; lra | constructor].
  - destruct Hinc as [Hlt Hinc]. specialize (IH x1 Hinc).
    change (last (x0 :: x1 :: l) x0) with (last (x1 :: l) x0).
    rewrite (last_nonempty x1 l x0 x1).
    pose proof (Forall_inv IH) as H1. cbv beta in H1.
    constructor; [lra |].
    eapply Forall_impl; [| exact IH]. intros a Ha. cbv beta in Ha. lra.
Qed.

Lemma weighted_terms_bounds (lo hi : R) (t w : list R) :
  increasing w -> Forall (fun x => lo <= x <= hi) w ->
  Forall (fun a => 0 <= a) t ->
  lo * sum (trapz_terms t w) <= sum (trapz_terms (map2 Rmult t w) w)
  <= hi * sum (trapz_terms t w).
Proof.
  revert w. induction t as [| t0 t IH]; intros w Hinc Hw Ht.
  - simpl. lra.
  - destruct t as [| t1 t]; [destruct w as [| ? [| ? ?]]; simpl; lra |].
    destruct w as [| w0 [| w1 w]]; try (simpl; lra).
    change (map2 Rmult (t0 :: t1 :: t) (w0 :: w1 :: w))
      with (t0 * w0 :: map2 Rmult (t1 :: t) (w1 :: w)).
    change (trapz_terms (t0 * w0 :: map2 Rmult (t1 :: t) (w1 :: w))
                        (w0 :: w1 :: w))
      with ((w1 - w0) * (t1 * w1 + t0 * w0)
            :: trapz_terms (map2 Rmult (t1 :: t) (w1 :: w)) (w1 :: w)).
    rewrite trapz_terms_cons2.
    destruct Hinc as [Hlt Hinc].
    pose proof (Forall_inv Hw) as Hw0.
    pose proof (Forall_inv (Forall_inv_tail Hw)) as Hw1.
    pose proof (Forall_inv Ht) as Ht0.
    pose proof (Forall_inv (Forall_inv_tail Ht)) as Ht1.
    simpl in Hw0, Hw1, Ht0, Ht1.
    specialize (IH (w1 :: w) Hinc (Forall_inv_tail Hw) (Forall_inv_tail Ht)).
    change (sum (?a :: ?l)) with (a + sum l).
    assert (H0 : 0 <= (w1 - w0) * t0) by nra.
    assert (H1 : 0 <= (w1 - w0) * t1) by nra.
    split; nra.
Qed.

Lemma trapz_trans_pos (w t : list R) :
  length w = length t -> (2 <= length w)%nat -> increasing w ->
  Forall (fun a => 0 <= a) t -> Exists (fun a => 0 < a) t ->
  0 < sum (trapz_terms t w).
Proof.
  intros Hlen H2 Hinc Ht Hex.
  apply sum_pos; [now apply trapz_terms_nonneg |].
  apply trapz_terms_pos; try assumption; [now symmetry | lia].
Qed.

(** X10: the effective wavelength of a valid filter curve with some positive
    transmission, seen at redshift [z > -1], lies between the first and the
    last filter wavelength, both divided by [1 + z]. *)
Theorem filter_effective_wavelength_bounds
  (filter_wave filter_trans : list R) (redshift : R) :
  valid_filter_curve filter_wave filter_trans ->
  Exists (fun t => 0 < t) filter_trans ->
  -1 < redshift ->
  hd 0 filter_wave / (1 + redshift)
  <= _get_filter_effective_wavelength filter_wave filter_trans redshift
  <= last filter_wave 0 / (1 + redshift).
Proof.
  intros (Hlen & H2 & Hinc & Hw & Ht) Hex Hz.
  destruct filter_wave as [| w0 w]; [simpl in H2; lia |].
  pose proof (increasing_bounds w w0 Hinc) as Hb.
  assert (Hlast : last (w0 :: w) 0 = last (w0 :: w) w0)
    by apply last_nonempty.
  rewrite Hlast. simpl hd.
  set (hi := last (w0 :: w) w0) in *.
  pose proof (weighted_terms_bounds w0 hi filter_trans (w0 :: w) Hinc Hb Ht)
    as [Hlo Hhi].
  pose proof (trapz_trans_pos (w0 :: w) filter_trans Hlen H2 Hinc Ht Hex)
    as Hnorm.
  unfold _get_filter_effective_wavelength, trapz. cbv zeta.
  set (N := sum (trapz_terms filter_trans (w0 :: w))) in *.
  set (M := sum (trapz_terms (map2 Rmult filter_trans (w0 :: w)) (w0 :: w)))
    in *.
  assert (Hratio : w0 <= 0.5 * M / (0.5 * N) <= hi).
  { assert (HN : 0 < 0.5 * N) by lra.
    split.
    - apply (Rmult_le_reg_r (0.5 * N)); [exact HN |].
      unfold Rdiv. rewrite Rmult_assoc, Rinv_l by lra. lra.
    - apply (Rmult_le_reg_r (0.5 * N)); [exact HN |].
      unfold Rdiv. rewrite Rmult_assoc, Rinv_l by lra. lra. }
  assert (Hinv : 0 < / (1 + redshift)) by (apply Rinv_0_lt_compat; lra).
  unfold Rdiv in *. split; apply Rmult_le_compat_r; lra.
Qed.

Lemma filter_effective_wavelength_bounds_witness :
  hd 0 [4000; 5000] / (1 + 1)
  <= _get_filter_effective_wavelength [4000; 5000] [1; 0.5] 1
  <= last [4000; 5000] 0 / (1 + 1).
Proof.
  apply (filter_effective_wavelength_bounds [4000; 5000] [1; 0.5] 1).
  - unfold valid_filter_curve. simpl.
    repeat split; try lia; try lra; repeat constructor; lra.
  - apply Exists_cons_hd. lra.
  - lra.
Defined.

Lemma weighted_trans_scale (c : R) (t w : list R) :
  map2 Rmult (map (Rmult c) t) w = map (Rmult c) (map2 Rmult t w).
Proof.
  revert w. induction t as [| t0 t IH]; intros [| w0 w]; try reflexivity.
  simpl. rewrite IH. f_equal. ring.
Qed.

(** X11: the effective wavelength does not depend on the normalisation of the
    transmission: rescaling it by any [c <> 0] changes nothing. *)
Theorem filter_effective_wavelength_scale_invariant (c : R)
  (filter_wave filter_trans : list R) (redshift : R) :
  c <> 0 ->
  _get_filter_effective_wavelength filter_wave (map (Rmult c) filter_trans)
                                   redshift
  = _get_filter_effective_wavelength filter_wave filter_trans redshift.
Proof.
  intros Hc. unfold _get_filter_effective_wavelength. cbv zeta.
  rewrite weighted_trans_scale, !trapz_scale, ratio_scale by exact Hc.
  reflexivity.
Qed.

Lemma filter_effective_wavelength_scale_invariant_witness :
  _get_filter_effective_wavelength [4000; 5000] (map (Rmult 3) [1; 0.5]) 1
  = _get_filter_effective_wavelength [4000; 5000] [1; 0.5] 1.
Proof.
  apply (filter_effective_wavelength_scale_invariant 3). lra.
Defined.

(** *** The attenuation factor of a filter *)

Lemma RV_C00_pos : 0 < RV_C00.
Proof. unfold RV_C00. lra. Qed.

Lemma filter_effective_wavelength_pos
  (filter_wave filter_trans : list R) (redshift : R) :
  valid_filter_curve filter_wave filter_trans ->
  Exists (fun t => 0 < t) filter_trans ->
  -1 < redshift ->
  0 < _get_filter_effective_wavelength filter_wave filter_trans redshift.
Proof.
  intros (Hlen & H2 & Hinc & Hw & Ht) Hex Hz.
  destruct filter_wave as [| w0 w]; [simpl in H2; lia |].
  pose proof (increasing_bounds w w0 Hinc) as Hb.
  pose proof (Forall_inv Hw) as Hw0. cbv beta in Hw0.
  pose proof (weighted_terms_bounds w0 (last (w0 :: w) w0) filter_trans
                (w0 :: w) Hinc Hb Ht) as [Hlo _].
  pose proof (trapz_trans_pos (w0 :: w) filter_trans Hlen H2 Hinc Ht Hex)
    as Hnorm.
  unfold _get_filter_effective_wavelength, trapz. cbv zeta.
  set (N := sum (trapz_terms filter_trans (w0 :: w))) in *.
  set (M := sum (trapz_terms (map2 Rmult filter_trans (w0 :: w)) (w0 :: w)))
    in *.
  assert (HM : 0 < M) by nra.
  apply div_pos; [apply div_pos |]; lra.
Qed.

(** X12: for a valid filter curve with some positive transmission seen at
    a redshift [z > -1], the effective wavelength is strictly positive and
    the attenuation factor a caller multiplies into a flux is a fraction in
    (0, 1], for all dust parameters; it is exactly 1 when [dust_Av = 0]. *)
Theorem effective_attenuation_range
  (filter_wave filter_trans : list R) (redshift : R)
  (dust_Eb dust_delta dust_Av : R) :
  valid_filter_curve filter_wave filter_trans ->
  Exists (fun t => 0 < t) filter_trans ->
  -1 < redshift ->
  0 < _get_filter_effective_wavelength filter_wave filter_trans redshift
  /\ 0 < _get_effective_attenuation filter_wave filter_trans redshift
          (dust_Eb, dust_delta, dust_Av) <= 1
  /\ _get_effective_attenuation filter_wave filter_trans redshift
       (dust_Eb, dust_delta, 0) = 1.
Proof.
  intros Hvalid Hex Hz.
  split; [now apply filter_effective_wavelength_pos |].
  unfold _get_effective_attenuation, _flux_ratio_default, _flux_ratio.
  cbv zeta. split.
  - match goal with
    | |- context [_attenuation_curve ?a ?r ?v] =>
        pose proof (attenuated_fraction_le_1 a r v) as Hle;
        pose proof (pow10_pos (-0.4 * _attenuation_curve a r v)) as Hpos
    end.
    split; lra.
  - rewrite attenuation_curve_clipped
      by (unfold Rdiv; rewrite Rmult_0_l, Rmult_0_l; lra).
    replace (-0.4 * 0) with 0 by ring. rewrite pow10_0. lra.
Qed.

Lemma effective_attenuation_range_witness :
  0 < _get_filter_effective_wavelength [4000; 5000] [1; 0.5] 0.5
  /\ 0 < _get_effective_attenuation [4000; 5000] [1; 0.5] 0.5 (1, -0.2, 1)
     <= 1
  /\ _get_effective_attenuation [4000; 5000] [1; 0.5] 0.5 (1, -0.2, 0) = 1.
Proof.
  apply (effective_attenuation_range [4000; 5000] [1; 0.5] 0.5 1 (-0.2) 1).
  - unfold valid_filter_curve. simpl.
    repeat split; try lia; try lra; repeat constructor; lra.
  - apply Exists_cons_hd. lra.
  - lra.
Defined.

(** X13: raising [dust_Av], everything else fixed, never raises the attenuation
    factor. *)
Theorem effective_attenuation_antitone_av
  (filter_wave filter_trans : list R) (redshift : R)
  (dust_Eb dust_delta av1 av2 : R) :
  av1 <= av2 ->
  _get_effective_attenuation filter_wave filter_trans redshift
    (dust_Eb, dust_delta, av2)
  <= _get_effective_attenuation filter_wave filter_trans redshift
       (dust_Eb, dust_delta, av1).
Proof.
  intros Hav.
  unfold _get_effective_attenuation, _flux_ratio_default, _flux_ratio.
  cbv zeta.
  match goal with
  | |- context [_attenuation_curve ?a ?r av2] =>
      assert (Ha : 0 <= a)
        by (unfold sbl18_k_lambda; cbv zeta; rewrite clip0_Rmax;
            apply Rmax_l);
      pose proof (attenuation_curve_monotone_av a r av1 av2 Ha RV_C00_pos Hav)
        as Hm;
      assert (Hp : Rpower 10 (-0.4 * _attenuation_curve a r av2)
                   <= Rpower 10 (-0.4 * _attenuation_curve a r av1))
        by (apply pow10_le; lra)
  end.
  lra.
Qed.

Lemma effective_attenuation_antitone_av_witness :
  _get_effective_attenuation [4000; 5000] [1; 0.5] 0 (1, 0, 2)
  <= _get_effective_attenuation [4000; 5000] [1; 0.5] 0 (1, 0, 1).
Proof.
  apply (effective_attenuation_antitone_av [4000; 5000] [1; 0.5] 0 1 0 1 2).
  lra.
Defined.

(** *** Where the clip is idle *)

Lemma leitherer02_pos (x rv : R) : 0 < x -> 0 < leitherer02_k_lambda x rv.
Proof.
  intros Hx. unfold leitherer02_k_lambda. cbv zeta.
  unfold Rdiv. rewrite <- !pow_inv.
  pose proof (Rinv_0_lt_compat x Hx) as Hu.
  set (u := / x) in *.
  assert (Hq : 0 < 0.671 - 9.218 * 1e-3 * u + 2.620 * 1e-3 * (u * u)).
  { pose proof (pow2_ge_0 (u - 1.75)) as H. simpl in H. nra. }
  assert (Hp : 0 < u * (0.671 - 9.218 * 1e-3 * u + 2.620 * 1e-3 * (u * u)))
    by (apply Rmult_lt_0_compat; assumption).
  simpl. nra.
Qed.

Lemma calzetti00_pos (x : R) : 0 < x <= 3 -> 0 < calzetti00_k_lambda x RV_C00.
Proof.
  intros [Hx H3]. unfold RV_C00.
  destruct (Rlt_dec x 0.63) as [Hlt | Hge].
  - rewrite calzetti00_uv_branch by exact Hlt.
    assert (Hu : 100 / 63 < / x).
    { replace (100 / 63) with (/ 0.63) by lra.
      apply Rinv_lt_contravar; nra. }
    set (u := / x) in *. set (v := 100 / 63) in *.
    assert (Hq : 0 < 1.509 - 0.198 * (u + v)
                     + 0.011 * (u * u + u * v + v * v)).
    { pose proof (pow2_ge_0 (u + v - 12)) as H1.
      pose proof (pow2_ge_0 (u - v)) as H2. simpl in H1, H2. nra. }
    assert (Hd : 0 < (u - v) * (1.509 - 0.198 * (u + v)
                                + 0.011 * (u * u + u * v + v * v)))
      by (apply Rmult_lt_0_compat; lra).
    assert (Hv : -0.22 < -2.156 + 1.509 * v - 0.198 * (v * v)
                         + 0.011 * (v * (v * v))) by (unfold v; lra).
    simpl. nra.
  - rewrite calzetti00_red_branch by lra.
    assert (Hu : / 3 <= / x) by (apply Rinv_le_contravar; lra).
    lra.
Qed.

(** X14: for wavelengths in (0, 3] microns, a bump with [gamma <> 0] and
    [ampl >= 0], the clip at zero never fires: Noll09 is
    [(base + bump) * power_law] and Salim18 is [base * power_law + bump],
    with a strictly positive base curve. *)
Theorem noll09_sbl18_unclipped (x x0 gamma ampl slope : R) :
  0 < x <= 3 -> gamma <> 0 -> 0 <= ampl ->
  0 < _l02_below_c00_above x 0.15
  /\ noll09_k_lambda x x0 gamma ampl slope
     = (_l02_below_c00_above x 0.15 + drude_bump x x0 gamma ampl)
       * power_law_vband_norm x slope
  /\ sbl18_k_lambda x x0 gamma ampl slope
     = _l02_below_c00_above x 0.15 * power_law_vband_norm x slope
       + drude_bump x x0 gamma ampl.
Proof.
  intros Hx Hg Ha.
  assert (Hbase : 0 < _l02_below_c00_above x 0.15).
  { unfold _l02_below_c00_above. cbv zeta. unfold where_.
    destruct (Rgt_dec x 0.15);
      [now apply calzetti00_pos | apply leitherer02_pos; lra]. }
  assert (Hbump : 0 <= drude_bump x x0 gamma ampl).
  { unfold drude_bump. cbv zeta.
    assert (Hn : 0 < x ^ 2 * gamma ^ 2)
      by (apply Rmult_lt_0_compat; apply sq_pos; [lra | exact Hg]).
    pose proof (pow2_ge_0 (x ^ 2 - x0 ^ 2)) as Hb.
    apply Rmult_le_pos; [exact Ha |]. apply div_nonneg; lra. }
  pose proof (exp_pos (slope * ln (x / 0.55))) as Hp.
  fold (Rpower (x / 0.55) slope) in Hp.
  fold (power_law_vband_norm x slope) in Hp.
  split; [exact Hbase |].
  unfold noll09_k_lambda, sbl18_k_lambda. cbv zeta.
  split; apply where_false; nra.
Qed.

Lemma noll09_sbl18_unclipped_witness :
  0 < _l02_below_c00_above 0.2 0.15
  /\ noll09_k_lambda 0.2 0.2175 0.035 3 (-0.5)
     = (_l02_below_c00_above 0.2 0.15 + drude_bump 0.2 0.2175 0.035 3)
       * power_law_vband_norm 0.2 (-0.5)
  /\ sbl18_k_lambda 0.2 0.2175 0.035 3 (-0.5)
     = _l02_below_c00_above 0.2 0.15 * power_law_vband_norm 0.2 (-0.5)
       + drude_bump 0.2 0.2175 0.035 3.
Proof.
  apply (noll09_sbl18_unclipped 0.2 0.2175 0.035 3 (-0.5)); lra.
Defined.

Lemma sbl18_minus_noll09_witness :
  sbl18_k_lambda 0.2 0.2175 0.035 3 (-0.5)
  - noll09_k_lambda 0.2 0.2175 0.035 3 (-0.5)
  = drude_bump 0.2 0.2175 0.035 3
    * (1 - power_law_vband_norm 0.2 (-0.5)).
Proof.
  assert (Hbase : 0 < _l02_below_c00_above 0.2 0.15).
  { unfold _l02_below_c00_above. cbv zeta. rewrite where_true by lra.
    apply calzetti00_pos. lra. }
  assert (Hbump : 0 <= drude_bump 0.2 0.2175 0.035 3).
  { unfold drude_bump. cbv zeta.
    assert (Hn : 0 < 0.2 ^ 2 * 0.035 ^ 2) by lra.
    pose proof (pow2_ge_0 (0.2 ^ 2 - 0.2175 ^ 2)) as Hb.
    apply Rmult_le_pos; [lra |]. apply div_nonneg; lra. }
  pose proof (exp_pos (-0.5 * ln (0.2 / 0.55))) as Hp.
  fold (Rpower (0.2 / 0.55) (-0.5)) in Hp.
  fold (power_law_vband_norm 0.2 (-0.5)) in Hp.
  apply (sbl18_minus_noll09 0.2 0.2175 0.035 3 (-0.5)); nra.
Defined.

End DustLaws.

(** * Further properties of the photometry kernels *)

Module PhotometryLaws.
Import Arr Photometry DiffstarPhotometry DustFacts PhotometryFacts DustLaws.

(** *** Interpolation at and between the knots *)

Lemma increasing_nth_ge (l : list R) (x0 : R) (i : nat) :
  increasing (x0 :: l) -> (i <= length l)%nat ->
  x0 <= nth i (x0 :: l) 0 <= last (x0 :: l) x0.
Proof.
  intros Hinc Hi.
  pose proof (increasing_bounds l x0 Hinc) as Hb.
  rewrite Forall_forall in Hb. apply Hb. apply nth_In. simpl. lia.
Qed.

(** On a strictly increasing axis the walk returns the tabulated value at
    every knot. *)
Lemma interp_go_knot (xp fp : list R) (x0 f0 : R) (i : nat) :
  increasing (x0 :: xp) -> length xp = length fp -> (i <= length xp)%nat ->
  interp_go (nth i (x0 :: xp) 0) x0 f0 xp fp = nth i (f0 :: fp) 0.
Proof.
  revert fp x0 f0 i.
  induction xp as [| x1 xp IH]; intros fp x0 f0 i Hinc Hlen Hi.
  - destruct fp; [| discriminate]. simpl in Hi.
    assert (i = 0)%nat by lia. subst. reflexivity.
  - destruct fp as [| f1 fp]; [discriminate |].
    injection Hlen as Hlen. destruct Hinc as [Hlt Hinc].
    destruct i as [| i].
    + change (nth 0 (x0 :: x1 :: xp) 0) with x0.
      change (nth 0 (f0 :: f1 :: fp) 0) with f0.
      simpl. destruct xp; case_where; try lra;
        unfold Rdiv; ring.
    + change (nth (S i) (x0 :: x1 :: xp) 0) with (nth i (x1 :: xp) 0).
      change (nth (S i) (f0 :: f1 :: fp) 0) with (nth i (f1 :: fp) 0).
      simpl in Hi.
      pose proof (increasing_nth_ge xp x1 i Hinc ltac:(lia)) as [Hge _].
      destruct xp as [| x2 xp].
      * simpl in Hi. assert (i = 0)%nat by lia. subst i.
        destruct fp; [| discriminate].
        simpl. case_where; [lra |]. field. lra.
      * change (interp_go ?x x0 f0 (x1 :: x2 :: xp) (f1 :: fp))
          with (if Rlt_dec x x1
                then where_ (Req_dec_T (x1 - x0) 0) f0
                            (f0 + (x - x0) / (x1 - x0) * (f1 - f0))
                else interp_go x x1 f1 (x2 :: xp) fp).
        destruct (Rlt_dec (nth i (x1 :: x2 :: xp) 0) x1) as [Hc | _];
          [lra |].
        apply IH; [exact Hinc | exact Hlen | lia].
Qed.

Lemma interp1_knot (xp fp : list R) (i : nat) (left right : R) :
  increasing xp -> length xp = length fp -> (i < length xp)%nat ->
  interp1 (nth i xp 0) xp fp left right = nth i fp 0.
Proof.
  intros Hinc Hlen Hi.
  destruct xp as [| x0 xp]; [simpl in Hi; lia |].
  destruct fp as [| f0 fp]; [discriminate |].
  injection Hlen as Hlen. simpl in Hi.
  pose proof (increasing_nth_ge xp x0 i Hinc ltac:(lia)) as [Hge Hle].
  unfold interp1. cbv zeta.
  rewrite where_false by lra. rewrite where_false by lra.
  apply interp_go_knot; [exact Hinc | exact Hlen | lia].
Qed.

(** *** Dimming from a tabulated distance modulus *)

(** X15: at a tabulated redshift the table's own distance modulus is used: for
    a strictly increasing [z_table] with as many entries as
    [distance_modulus_table], the dimming at [z_table[i]] is
    [distance_modulus_table[i] - 2.5 * log10(1 + z_table[i])]. *)
Theorem cosmological_dimming_from_table_at_knot
  (z_table distance_modulus_table : list R) (i : nat) :
  increasing z_table ->
  length z_table = length distance_modulus_table ->
  (i < length z_table)%nat ->
  _cosmological_dimming_from_table (nth i z_table 0) z_table
                                   distance_modulus_table
  = nth i distance_modulus_table 0 - 2.5 * log10 (1 + nth i z_table 0).
Proof.
  intros Hinc Hlen Hi. unfold _cosmological_dimming_from_table. cbv zeta.
  now rewrite interp1_knot.
Qed.

Lemma cosmological_dimming_from_table_at_knot_witness :
  _cosmological_dimming_from_table (nth 1 [0; 0.5; 1] 0) [0; 0.5; 1]
                                   [30; 42; 44]
  = nth 1 [30; 42; 44] 0 - 2.5 * log10 (1 + nth 1 [0; 0.5; 1] 0).
Proof.
  apply (cosmological_dimming_from_table_at_knot [0; 0.5; 1] [30; 42; 44] 1).
  - simpl. lra.
  - reflexivity.
  - simpl. lia.
Defined.

(** X16: outside the table nothing is extrapolated: below the first tabulated
    redshift the first distance modulus is used, above the last one the
    last. *)
Theorem cosmological_dimming_from_table_clamped
  (z : R) (z_table distance_modulus_table : list R) :
  increasing z_table ->
  length z_table = length distance_modulus_table ->
  (z < hd 0 z_table ->
   _cosmological_dimming_from_table z z_table distance_modulus_table
   = hd 0 distance_modulus_table - 2.5 * log10 (1 + z))
  /\ (z > last z_table 0 ->
      _cosmological_dimming_from_table z z_table distance_modulus_table
      = last distance_modulus_table 0 - 2.5 * log10 (1 + z)).
Proof.
  intros Hinc Hlen. unfold _cosmological_dimming_from_table. cbv zeta.
  destruct z_table as [| x0 xp]; destruct distance_modulus_table as [| f0 fp];
    try discriminate.
  - simpl. split; intros; reflexivity.
  - pose proof (increasing_nth_ge xp x0 0 Hinc ltac:(lia)) as [_ Hle].
    change (nth 0 (x0 :: xp) 0) with x0 in Hle.
    rewrite (last_nonempty x0 xp 0 x0).
    unfold interp1. cbv zeta. simpl hd.
    split; intros Hz.
    + rewrite where_false by lra. rewrite where_true by lra. reflexivity.
    + rewrite where_true by lra. reflexivity.
Qed.

Lemma cosmological_dimming_from_table_clamped_witness :
  _cosmological_dimming_from_table (-0.5) [0; 0.5; 1] [30; 42; 44]
  = hd 0 [30; 42; 44] - 2.5 * log10 (1 + -0.5)
  /\ _cosmological_dimming_from_table 2 [0; 0.5; 1] [30; 42; 44]
     = last [30; 42; 44] 0 - 2.5 * log10 (1 + 2).
Proof.
  assert (Hinc : increasing [0; 0.5; 1]) by (simpl; lra).
  split.
  - apply (proj1 (cosmological_dimming_from_table_clamped
                    (-0.5) [0; 0.5; 1] [30; 42; 44] Hinc eq_refl)).
    simpl. lra.
  - apply (proj2 (cosmological_dimming_from_table_clamped
                    2 [0; 0.5; 1] [30; 42; 44] Hinc eq_refl)).
    simpl. lra.
Defined.

(** *** Superposition of spectra *)

Lemma where_scale {P Q : Prop} (k : {P} + {Q}) (c a b : R) :
  where_ k (c * a) (c * b) = c * where_ k a b.
Proof. unfold where_. now destruct k. Qed.

Lemma where_plus {P Q : Prop} (k : {P} + {Q}) (a1 b1 a2 b2 : R) :
  where_ k (a1 + a2) (b1 + b2) = where_ k a1 b1 + where_ k a2 b2.
Proof. unfold where_. now destruct k. Qed.

Lemma interp_go_scale (c x : R) (xp fp : list R) (x0 f0 : R) :
  interp_go x x0 (c * f0) xp (map (Rmult c) fp)
  = c * interp_go x x0 f0 xp fp.
Proof.
  revert fp x0 f0. induction xp as [| x1 xp IH]; intros fp x0 f0.
  - destruct fp; reflexivity.
  - destruct fp as [| f1 fp]; [reflexivity |].
    simpl map. simpl interp_go.
    replace (c * f0 + (x - x0) / (x1 - x0) * (c * f1 - c * f0))
      with (c * (f0 + (x - x0) / (x1 - x0) * (f1 - f0))) by ring.
    rewrite where_scale.
    destruct xp; [reflexivity |].
    destruct (Rlt_dec x x1); [reflexivity | apply IH].
Qed.

Lemma interp_go_plus (x : R) (xp fp gp : list R) (x0 f0 g0 : R) :
  length fp = length gp ->
  interp_go x x0 (f0 + g0) xp (map2 Rplus fp gp)
  = interp_go x x0 f0 xp fp + interp_go x x0 g0 xp gp.
Proof.
  revert fp gp x0 f0 g0.
  induction xp as [| x1 xp IH]; intros fp gp x0 f0 g0 Hlen.
  - destruct fp, gp; reflexivity.
  - destruct fp as [| f1 fp]; destruct gp as [| g1 gp]; try discriminate;
      [reflexivity |].
    injection Hlen as Hlen.
    simpl map2. simpl interp_go.
    replace (f0 + g0 + (x - x0) / (x1 - x0) * (f1 + g1 - (f0 + g0)))
      with ((f0 + (x - x0) / (x1 - x0) * (f1 - f0))
            + (g0 + (x - x0) / (x1 - x0) * (g1 - g0))) by ring.
    rewrite where_plus.
    destruct xp; [reflexivity |].
    destruct (Rlt_dec x x1); [reflexivity | now apply IH].
Qed.

(** Interpolation with zero fill is linear in the tabulated values. *)
Lemma interp_scale (c : R) (x xp fp : list R) :
  interp x xp (map (Rmult c) fp) 0 0 = map (Rmult c) (interp x xp fp 0 0).
Proof.
  unfold interp. rewrite map_map. apply map_ext. intros xi.
  unfold interp1.
  destruct xp as [| x0 xp]; [ring |].
  destruct fp as [| f0 fp]; [simpl; ring |].
  simpl map. cbv beta iota zeta. rewrite interp_go_scale.
  unfold where_. case_where; ring.
Qed.

Lemma interp_plus (x xp fp gp : list R) :
  length fp = length gp ->
  interp x xp (map2 Rplus fp gp) 0 0
  = map2 Rplus (interp x xp fp 0 0) (interp x xp gp 0 0).
Proof.
  intros Hlen. unfold interp.
  induction x as [| xi x IH]; [reflexivity |].
  simpl. rewrite IH. f_equal.
  unfold interp1.
  destruct xp as [| x0 xp]; [ring |].
  destruct fp as [| f0 fp]; destruct gp as [| g0 gp]; try discriminate;
    [simpl; ring |].
  injection Hlen as Hlen.
  simpl map2. cbv beta iota zeta. rewrite interp_go_plus by exact Hlen.
  unfold where_. case_where; ring.
Qed.

Lemma interp_length (x xp fp : list R) (left right : R) :
  length (interp x xp fp left right) = length x.
Proof. unfold interp. apply length_map. Qed.

Lemma source_integrand_lum_scale (c : R) (trans lum wave : list R) :
  map2 Rdiv (map2 Rmult trans (map (Rmult c) lum)) wave
  = map (Rmult c) (map2 Rdiv (map2 Rmult trans lum) wave).
Proof.
  revert lum wave.
  induction trans as [| t trans IH]; intros [| l lum] [| w wave];
    try reflexivity.
  simpl. rewrite IH. f_equal. unfold Rdiv. ring.
Qed.

Lemma source_integrand_lum_plus (trans l1 l2 wave : list R) :
  length l1 = length l2 ->
  map2 Rdiv (map2 Rmult trans (map2 Rplus l1 l2)) wave
  = map2 Rplus (map2 Rdiv (map2 Rmult trans l1) wave)
               (map2 Rdiv (map2 Rmult trans l2) wave).
Proof.
  revert l1 l2 wave.
  induction trans as [| t trans IH]; intros [| a l1] [| b l2] [| w wave] Hlen;
    try discriminate; try reflexivity.
  injection Hlen as Hlen.
  simpl. rewrite IH by exact Hlen. f_equal. unfold Rdiv. ring.
Qed.

Lemma source_integrand_length (trans l1 l2 wave : list R) :
  length l1 = length l2 ->
  length (map2 Rdiv (map2 Rmult trans l1) wave)
  = length (map2 Rdiv (map2 Rmult trans l2) wave).
Proof.
  revert l1 l2 wave.
  induction trans as [| t trans IH]; intros [| a l1] [| b l2] [| w wave] Hlen;
    try discriminate; try reflexivity.
  injection Hlen as Hlen. simpl. f_equal. now apply IH.
Qed.

Lemma trapz_plus (y1 y2 x : list R) :
  length y1 = length y2 ->
  trapz (map2 Rplus y1 y2) x = trapz y1 x + trapz y2 x.
Proof.
  intros Hlen. unfold trapz.
  enough (H : sum (trapz_terms (map2 Rplus y1 y2) x)
              = sum (trapz_terms y1 x) + sum (trapz_terms y2 x))
    by (rewrite H; ring).
  revert y2 x Hlen. induction y1 as [| a0 y1 IH]; intros y2 x Hlen.
  - destruct y2; [simpl; ring | discriminate].
  - destruct y2 as [| b0 y2]; [discriminate |]. injection Hlen as Hlen.
    destruct y1 as [| a1 y1]; destruct y2 as [| b1 y2]; try discriminate.
    + simpl. ring.
    + destruct x as [| x0 [| x1 x]]; try (simpl; ring).
      change (map2 Rplus (a0 :: a1 :: y1) (b0 :: b1 :: y2))
        with (a0 + b0 :: map2 Rplus (a1 :: y1) (b1 :: y2)).
      change (map2 Rplus (a1 :: y1) (b1 :: y2))
        with (a1 + b1 :: map2 Rplus y1 y2) at 1.
      rewrite !trapz_terms_cons2.
      change (a1 + b1 :: map2 Rplus y1 y2)
        with (map2 Rplus (a1 :: y1) (b1 :: y2)).
      change (sum (?a :: ?l)) with (a + sum l).
      rewrite (IH (b1 :: y2) (x1 :: x) Hlen). ring.
Qed.

(** X17: the rest-frame flux is linear in the spectrum: through any filter, the
    flux of [a * l1 + b * l2] is [a] times the flux of [l1] plus [b] times
    the flux of [l2], for luminosity arrays of the same length. *)
Theorem rest_flux_ssp_linear (a b : R)
  (wave_spec_rest l1 l2 wave_filter trans_filter : list R) :
  length l1 = length l2 ->
  _rest_flux_ssp wave_spec_rest
    (map2 Rplus (map (Rmult a) l1) (map (Rmult b) l2))
    wave_filter trans_filter
  = a * _rest_flux_ssp wave_spec_rest l1 wave_filter trans_filter
    + b * _rest_flux_ssp wave_spec_rest l2 wave_filter trans_filter.
Proof.
  intros Hlen. unfold _rest_flux_ssp. cbv zeta.
  rewrite interp_plus by (rewrite !length_map; exact Hlen).
  rewrite source_integrand_lum_plus by (now rewrite !interp_length).
  rewrite trapz_plus
    by (apply source_integrand_length; now rewrite !interp_length).
  now rewrite !interp_scale, !source_integrand_lum_scale, !trapz_scale.
Qed.

Lemma rest_flux_ssp_linear_witness :
  _rest_flux_ssp [3000; 6000]
    (map2 Rplus (map (Rmult 2) [1; 1]) (map (Rmult 3) [0.5; 2]))
    [4000; 5000] [1; 1]
  = 2 * _rest_flux_ssp [3000; 6000] [1; 1] [4000; 5000] [1; 1]
    + 3 * _rest_flux_ssp [3000; 6000] [0.5; 2] [4000; 5000] [1; 1].
Proof.
  apply (rest_flux_ssp_linear 2 3 [3000; 6000] [1; 1] [0.5; 2]).
  reflexivity.
Defined.

(** *** Brightening a source *)

Lemma rest_flux_ssp_lum_scale (c : R)
  (wave_spec_rest lum_spec wave_filter trans_filter : list R) :
  _rest_flux_ssp wave_spec_rest (map (Rmult c) lum_spec) wave_filter
                 trans_filter
  = c * _rest_flux_ssp wave_spec_rest lum_spec wave_filter trans_filter.
Proof.
  unfold _rest_flux_ssp. cbv zeta.
  now rewrite interp_scale, source_integrand_lum_scale, trapz_scale.
Qed.

Lemma log10_mult (a b : R) : 0 < a -> 0 < b -> log10 (a * b) = log10 a + log10 b.
Proof.
  intros Ha Hb. unfold log10. rewrite ln_mult by assumption.
  unfold Rdiv. ring.
Qed.

(** X18: multiplying the luminosity by [c > 0] shifts the rest-frame magnitude
    by [- 2.5 * log10 c], whenever the flux ratio under the logarithm is
    positive. *)
Theorem calc_rest_mag_lum_scale (c : R)
  (wave_spec_rest lum_spec wave_filter trans_filter : list R) :
  0 < c ->
  0 < _rest_flux_ssp wave_spec_rest lum_spec wave_filter trans_filter
      / _flux_ab0_at_10pc wave_filter trans_filter ->
  _calc_rest_mag wave_spec_rest (map (Rmult c) lum_spec) wave_filter
                 trans_filter
  = _calc_rest_mag wave_spec_rest lum_spec wave_filter trans_filter
    - 2.5 * log10 c.
Proof.
  intros Hc Hr. unfold _calc_rest_mag. cbv zeta.
  rewrite rest_flux_ssp_lum_scale.
  replace (c * _rest_flux_ssp wave_spec_rest lum_spec wave_filter trans_filter
           / _flux_ab0_at_10pc wave_filter trans_filter)
    with (c * (_rest_flux_ssp wave_spec_rest lum_spec wave_filter trans_filter
               / _flux_ab0_at_10pc wave_filter trans_filter))
    by (unfold Rdiv; ring).
  rewrite log10_mult by assumption. lra.
Qed.

Lemma calc_rest_mag_lum_scale_witness :
  _calc_rest_mag [3000; 6000] (map (Rmult 100) [1; 1]) [4000; 5000] [1; 1]
  = _calc_rest_mag [3000; 6000] [1; 1] [4000; 5000] [1; 1]
    - 2.5 * log10 100.
Proof.
  apply (calc_rest_mag_lum_scale 100); [lra |].
  rewrite rest_flux_ssp_flat, flux_ab0_at_10pc_flat.
  apply div_pos; [lra |]. pose proof AB0_pos. lra.
Defined.

(** *** Fluxes of non-negative spectra *)

Lemma chord_nonneg (x x0 x1 f0 f1 : R) :
  x0 <= x <= x1 -> 0 <= f0 -> 0 <= f1 ->
  0 <= where_ (Req_dec_T (x1 - x0) 0) f0
              (f0 + (x - x0) / (x1 - x0) * (f1 - f0)).
Proof.
  intros [Hlo Hhi] H0 H1. unfold where_.
  destruct (Req_dec_T (x1 - x0) 0) as [_ | Hne]; [exact H0 |].
  assert (Hd : 0 < x1 - x0) by lra.
  set (t := (x - x0) / (x1 - x0)).
  assert (Ht : 0 <= t <= 1).
  { unfold t. split; [apply div_nonneg; lra |].
    apply (Rmult_le_reg_r (x1 - x0)); [exact Hd |].
    unfold Rdiv. rewrite Rmult_assoc, Rinv_l by lra. lra. }
  nra.
Qed.

Lemma interp_go_nonneg (x : R) (xp fp : list R) (x0 f0 : R) :
  increasing (x0 :: xp) -> x0 <= x <= last (x0 :: xp) x0 ->
  0 <= f0 -> Forall (fun f => 0 <= f) fp ->
  0 <= interp_go x x0 f0 xp fp.
Proof.
  revert fp x0 f0.
  induction xp as [| x1 xp IH]; intros fp x0 f0 Hinc Hx Hf0 Hfp.
  - destruct fp; exact Hf0.
  - destruct fp as [| f1 fp]; [exact Hf0 |].
    destruct Hinc as [Hlt Hinc].
    pose proof (Forall_inv Hfp) as Hf1. cbv beta in Hf1.
    change (last (x0 :: x1 :: xp) x0) with (last (x1 :: xp) x0) in Hx.
    rewrite (last_nonempty x1 xp x0 x1) in Hx.
    destruct xp as [| x2 xp].
    + simpl in Hx. simpl. apply chord_nonneg; [lra | lra | lra].
    + change (interp_go x x0 f0 (x1 :: x2 :: xp) (f1 :: fp))
        with (if Rlt_dec x x1
              then where_ (Req_dec_T (x1 - x0) 0) f0
                          (f0 + (x - x0) / (x1 - x0) * (f1 - f0))
              else interp_go x x1 f1 (x2 :: xp) fp).
      destruct (Rlt_dec x x1) as [Hc | Hc].
      * apply chord_nonneg; lra.
      * apply IH; [exact Hinc | lra | exact Hf1 | exact (Forall_inv_tail Hfp)].
Qed.

Lemma interp_nonneg (x xp fp : list R) :
  increasing xp -> Forall (fun f => 0 <= f) fp ->
  Forall (fun f => 0 <= f) (interp x xp fp 0 0).
Proof.
  intros Hinc Hfp. unfold interp. rewrite Forall_map, Forall_forall.
  intros xi _. unfold interp1.
  destruct xp as [| x0 xp]; [lra |].
  destruct fp as [| f0 fp]; [lra |].
  cbv zeta. unfold where_.
  destruct (Rgt_dec xi (last (x0 :: xp) x0)) as [Hgt | Hngt]; [lra |].
  destruct (Rlt_dec xi x0) as [Hlt | Hnlt]; [lra |].
  apply interp_go_nonneg;
    [exact Hinc | lra | exact (Forall_inv Hfp) | exact (Forall_inv_tail Hfp)].
Qed.

Lemma source_integrand_nonneg (trans lum wave : list R) :
  Forall (fun t => 0 <= t) trans -> Forall (fun l => 0 <= l) lum ->
  Forall (fun w => 0 < w) wave ->
  Forall (fun a => 0 <= a) (map2 Rdiv (map2 Rmult trans lum) wave).
Proof.
  intros Ht. revert lum wave.
  induction Ht as [| t trans Ht0 _ IH]; intros [| l lum] [| w wave] Hl Hw;
    simpl; try constructor.
  - pose proof (Forall_inv Hl) as Hl0. pose proof (Forall_inv Hw) as Hw0.
    cbv beta in Hl0, Hw0. apply div_nonneg; [nra | exact Hw0].
  - apply IH; [exact (Forall_inv_tail Hl) | exact (Forall_inv_tail Hw)].
Qed.

Lemma increasing_scale (s : R) (l : list R) :
  0 < s -> increasing l -> increasing (map (fun w => w * s) l).
Proof.
  intros Hs. induction l as [| a [| b l] IH]; intros Hinc;
    [exact I | exact I |].
  destruct Hinc as [Hlt Hinc]. split; [nra | now apply IH].
Qed.

(** X19: a spectrum without negative luminosities gives no negative flux: on a
    strictly increasing spectral axis and through a valid filter curve,
    the rest-frame flux is non-negative, and so is the observed flux at
    every redshift [z > -1]. *)
Theorem flux_ssp_nonneg
  (wave_spec_rest lum_spec wave_filter trans_filter : list R) (z : R) :
  increasing wave_spec_rest ->
  Forall (fun l => 0 <= l) lum_spec ->
  valid_filter_curve wave_filter trans_filter ->
  -1 < z ->
  0 <= _rest_flux_ssp wave_spec_rest lum_spec wave_filter trans_filter
  /\ 0 <= _obs_flux_ssp wave_spec_rest lum_spec wave_filter trans_filter z.
Proof.
  intros Hinc Hl (_ & _ & Hfw & Hw & Ht) Hz.
  assert (Hgen : forall xp, increasing xp ->
            0 <= trapz (map2 Rdiv (map2 Rmult trans_filter
                                      (interp wave_filter xp lum_spec 0 0))
                              wave_filter) wave_filter).
  { intros xp Hxp. unfold trapz.
    apply Rmult_le_pos; [lra |]. apply sum_nonneg.
    apply trapz_terms_nonneg; [exact Hfw |].
    apply source_integrand_nonneg; [exact Ht | | exact Hw].
    now apply interp_nonneg. }
  split.
  - apply Hgen, Hinc.
  - apply Hgen. apply increasing_scale; [lra | exact Hinc].
Qed.

Lemma flux_ssp_nonneg_witness :
  0 <= _rest_flux_ssp [3000; 6000] [1; 2] [4000; 5000] [1; 0.5]
  /\ 0 <= _obs_flux_ssp [3000; 6000] [1; 2] [4000; 5000] [1; 0.5] 0.5.
Proof.
  apply (flux_ssp_nonneg [3000; 6000] [1; 2] [4000; 5000] [1; 0.5] 0.5).
  - simpl. lra.
  - repeat constructor; lra.
  - unfold valid_filter_curve. simpl.
    repeat split; try lia; try lra; repeat constructor; lra.
  - lra.
Defined.

(** *** Rescaling the wavelength axes *)

Lemma last_scale (s : R) (l : list R) (d : R) :
  last (map (fun w => w * s) l) (d * s) = last l d * s.
Proof.
  induction l as [| a l IH]; [reflexivity |].
  destruct l as [| b l]; [reflexivity |].
  change (last (map (fun w => w * s) (a :: b :: l)) (d * s))
    with (last (map (fun w => w * s) (b :: l)) (d * s)).
  change (last (a :: b :: l) d) with (last (b :: l) d).
  exact IH.
Qed.

Lemma chord_axis_scale (s x x0 x1 f0 f1 : R) :
  0 < s ->
  where_ (Req_dec_T (x1 * s - x0 * s) 0) f0
         (f0 + (x * s - x0 * s) / (x1 * s - x0 * s) * (f1 - f0))
  = where_ (Req_dec_T (x1 - x0) 0) f0
           (f0 + (x - x0) / (x1 - x0) * (f1 - f0)).
Proof.
  intros Hs. unfold where_.
  destruct (Req_dec_T (x1 * s - x0 * s) 0) as [He | Hne];
    destruct (Req_dec_T (x1 - x0) 0) as [He' | Hne']; try reflexivity.
  - exfalso. apply Hne'. nra.
  - exfalso. apply Hne. nra.
  - f_equal. f_equal. field. split; [lra | nra].
Qed.

Lemma interp_go_axis_scale (s x : R) (xp fp : list R) (x0 f0 : R) :
  0 < s ->
  interp_go (x * s) (x0 * s) f0 (map (fun w => w * s) xp) fp
  = interp_go x x0 f0 xp fp.
Proof.
  intros Hs. revert fp x0 f0.
  induction xp as [| x1 xp IH]; intros fp x0 f0; [reflexivity |].
  destruct fp as [| f1 fp]; [reflexivity |].
  destruct xp as [| x2 xp].
  - simpl. now apply chord_axis_scale.
  - change (interp_go (x * s) (x0 * s) f0
              (map (fun w => w * s) (x1 :: x2 :: xp)) (f1 :: fp))
      with (if Rlt_dec (x * s) (x1 * s)
            then where_ (Req_dec_T (x1 * s - x0 * s) 0) f0
                        (f0 + (x * s - x0 * s) / (x1 * s - x0 * s)
                              * (f1 - f0))
            else interp_go (x * s) (x1 * s) f1
                           (map (fun w => w * s) (x2 :: xp)) fp).
    change (interp_go x x0 f0 (x1 :: x2 :: xp) (f1 :: fp))
      with (if Rlt_dec x x1
            then where_ (Req_dec_T (x1 - x0) 0) f0
                        (f0 + (x - x0) / (x1 - x0) * (f1 - f0))
            else interp_go x x1 f1 (x2 :: xp) fp).
    rewrite IH, chord_axis_scale by exact Hs.
    destruct (Rlt_dec (x * s) (x1 * s)); destruct (Rlt_dec x x1);
      try reflexivity; exfalso; nra.
Qed.

Lemma interp_axis_scale (s : R) (x xp fp : list R) (left right : R) :
  0 < s ->
  interp (map (fun w => w * s) x) (map (fun w => w * s) xp) fp left right
  = interp x xp fp left right.
Proof.
  intros Hs. unfold interp. rewrite map_map. apply map_ext. intros xi.
  unfold interp1.
  destruct xp as [| x0 xp]; [reflexivity |].
  destruct fp as [| f0 fp]; [reflexivity |].
  simpl map. cbv beta iota zeta.
  rewrite interp_go_axis_scale by exact Hs.
  change (x0 * s :: map (fun w => w * s) xp)
    with (map (fun w => w * s) (x0 :: xp)).
  rewrite last_scale.
  unfold where_.
  destruct (Rgt_dec (xi * s) (last (x0 :: xp) x0 * s));
    destruct (Rgt_dec xi (last (x0 :: xp) x0));
    destruct (Rlt_dec (xi * s) (x0 * s)); destruct (Rlt_dec xi x0);
    try reflexivity; exfalso; nra.
Qed.

Lemma source_integrand_axis_scale (s : R) (trans lum wave : list R) :
  0 < s ->
  map2 Rdiv (map2 Rmult trans lum) (map (fun w => w * s) wave)
  = map (Rmult (/ s)) (map2 Rdiv (map2 Rmult trans lum) wave).
Proof.
  intros Hs. revert lum wave.
  induction trans as [| t trans IH]; intros [| l lum] [| w wave];
    try reflexivity.
  simpl. rewrite IH. f_equal. unfold Rdiv. rewrite Rinv_mult. ring.
Qed.

Lemma trapz_axis_scale (s : R) (y x : list R) :
  0 < s ->
  trapz (map (Rmult (/ s)) y) (map (fun w => w * s) x) = trapz y x.
Proof.
  intros Hs. unfold trapz. f_equal. f_equal.
  revert x. induction y as [| y0 y IH]; intros x; [reflexivity |].
  destruct y as [| y1 y]; [reflexivity |].
  destruct x as [| x0 [| x1 x]]; try reflexivity.
  change (map (Rmult (/ s)) (y0 :: y1 :: y))
    with (/ s * y0 :: / s * y1 :: map (Rmult (/ s)) y).
  change (map (fun w => w * s) (x0 :: x1 :: x))
    with (x0 * s :: x1 * s :: map (fun w => w * s) x).
  rewrite !trapz_terms_cons2.
  change (/ s * y1 :: map (Rmult (/ s)) y)
    with (map (Rmult (/ s)) (y1 :: y)).
  change (x1 * s :: map (fun w => w * s) x)
    with (map (fun w => w * s) (x1 :: x)).
  rewrite IH. f_equal. field. lra.
Qed.

(** X20: the flux does not depend on the unit of wavelength: multiplying the
    spectral axis and the filter axis by the same [s > 0] leaves the
    rest-frame flux unchanged.  In particular, for [z > -1], observing at
    redshift [z] through a filter stretched by [1 + z] gives the rest-frame
    flux through the unstretched filter. *)
Theorem flux_ssp_axis_scale (s z : R)
  (wave_spec_rest lum_spec wave_filter trans_filter : list R) :
  0 < s -> -1 < z ->
  _rest_flux_ssp (map (fun w => w * s) wave_spec_rest) lum_spec
                 (map (fun w => w * s) wave_filter) trans_filter
  = _rest_flux_ssp wave_spec_rest lum_spec wave_filter trans_filter
  /\ _obs_flux_ssp wave_spec_rest lum_spec
                   (map (fun w => w * (1 + z)) wave_filter) trans_filter z
     = _rest_flux_ssp wave_spec_rest lum_spec wave_filter trans_filter.
Proof.
  intros Hs Hz.
  assert (Hgen : forall k, 0 < k ->
            trapz (map2 Rdiv
                     (map2 Rmult trans_filter
                        (interp (map (fun w => w * k) wave_filter)
                                (map (fun w => w * k) wave_spec_rest)
                                lum_spec 0 0))
                     (map (fun w => w * k) wave_filter))
                  (map (fun w => w * k) wave_filter)
            = _rest_flux_ssp wave_spec_rest lum_spec wave_filter
                             trans_filter).
  { intros k Hk. unfold _rest_flux_ssp. cbv zeta.
    now rewrite interp_axis_scale, source_integrand_axis_scale,
      trapz_axis_scale by exact Hk. }
  split.
  - apply Hgen, Hs.
  - apply Hgen. lra.
Qed.

Lemma flux_ssp_axis_scale_witness :
  _rest_flux_ssp (map (fun w => w * 0.1) [3000; 6000]) [1; 2]
                 (map (fun w => w * 0.1) [4000; 5000]) [1; 0.5]
  = _rest_flux_ssp [3000; 6000] [1; 2] [4000; 5000] [1; 0.5]
  /\ _obs_flux_ssp [3000; 6000] [1; 2]
                   (map (fun w => w * (1 + 0.5)) [4000; 5000]) [1; 0.5] 0.5
     = _rest_flux_ssp [3000; 6000] [1; 2] [4000; 5000] [1; 0.5].
Proof.
  apply (flux_ssp_axis_scale 0.1 0.5); lra.
Defined.

(** *** The other batched kernels *)

Lemma nth_error_map_nth {A B : Type} (f : A -> B) (l : list A) (d : A)
  (i : nat) :
  (i < length l)%nat -> nth_error (map f l) i = Some (f (nth i l d)).
Proof.
  intros Hi. rewrite nth_error_map, (nth_error_nth' l d) by exact Hi.
  reflexivity.
Qed.

(** Entry [(j, k)] of a batch over one [_a] axis and the [_b] axis. *)
Lemma jvmap_ab_entry (f : list R -> list R -> list R -> list R -> R -> R)
  (w : list R) (lum : list (list R)) (fw ft z : list R) (j k : nat) :
  (j < length lum)%nat -> (k < length z)%nat ->
  match nth_error (jvmap_a (jvmap_b f) w lum fw ft z) j with
  | Some col => nth_error col k
  | None => None
  end = Some (f w (nth j lum []) fw ft (nth k z 0)).
Proof.
  intros Hj Hk. unfold jvmap_a, jvmap_b.
  rewrite (nth_error_map_nth _ lum []) by exact Hj.
  apply nth_error_map_nth, Hk.
Qed.

(** X21: [_obs_flux_ssp_vmap] on a luminosity array of shape
    [(n_met, n_age, n_wave)] and [n_gal] redshifts: the result has shape
    [(n_met, n_age, n_gal)] and its entry [(i, j, k)] is the scalar flux of
    spectrum [(i, j)] at redshift [k]. *)
Theorem obs_flux_ssp_vmap_entries (n_met n_age n_gal : nat)
  (wave_spec_rest : list R) (lum_spec : list (list (list R)))
  (wave_filter trans_filter z : list R) :
  shape2 n_met n_age lum_spec ->
  length z = n_gal ->
  shape3 n_met n_age n_gal
    (_obs_flux_ssp_vmap wave_spec_rest lum_spec wave_filter trans_filter z)
  /\ forall i j k : nat,
       (i < n_met)%nat -> (j < n_age)%nat -> (k < n_gal)%nat ->
       at3 (_obs_flux_ssp_vmap wave_spec_rest lum_spec wave_filter
                               trans_filter z) i j k
       = Some (_obs_flux_ssp wave_spec_rest
                 (nth j (nth i lum_spec []) []) wave_filter trans_filter
                 (nth k z 0)).
Proof.
  intros [Hmet Hage] Hgal. unfold _obs_flux_ssp_vmap.
  split.
  - split; [unfold jvmap_a at 1; now rewrite length_map |].
    unfold jvmap_a at 1. rewrite Forall_map.
    eapply Forall_impl; [| exact Hage].
    intros row Hrow. unfold shape2, jvmap_a, jvmap_b.
    rewrite length_map. split; [exact Hrow |].
    rewrite Forall_map, Forall_forall. intros l _.
    now rewrite length_map.
  - intros i j k Hi Hj Hk. unfold at3.
    unfold jvmap_a at 1.
    rewrite (nth_error_map_nth _ lum_spec []) by lia.
    apply (jvmap_ab_entry _obs_flux_ssp); [| lia].
    rewrite Forall_forall in Hage.
    rewrite (Hage (nth i lum_spec [])) by (apply nth_In; lia). exact Hj.
Qed.

Lemma obs_flux_ssp_vmap_entries_witness :
  shape3 1 2 2
    (_obs_flux_ssp_vmap [3000; 6000] [[[1; 1]; [2; 2]]] [4000; 5000] [1; 1]
                        [0; 0.5])
  /\ forall i j k : nat,
       (i < 1)%nat -> (j < 2)%nat -> (k < 2)%nat ->
       at3 (_obs_flux_ssp_vmap [3000; 6000] [[[1; 1]; [2; 2]]] [4000; 5000]
                               [1; 1] [0; 0.5]) i j k
       = Some (_obs_flux_ssp [3000; 6000]
                 (nth j (nth i [[[1; 1]; [2; 2]]] []) [])
                 [4000; 5000] [1; 1] (nth k [0; 0.5] 0)).
Proof.
  apply (obs_flux_ssp_vmap_entries 1 2 2).
  - split; [reflexivity | repeat constructor].
  - reflexivity.
Defined.

(** X22: [_calc_obs_mag_no_dimming_vmap_singlemet] on a luminosity array of
    shape [(n_age, n_wave)] and [n_gal] redshifts returns [n_age] rows of
    [n_gal] magnitudes, entry [(j, k)] being the scalar call on spectrum
    [j] and redshift [k]; the three-axis kernel is this one applied to each
    metallicity slice. *)
Theorem calc_obs_mag_no_dimming_vmap_singlemet_entries (n_age n_gal : nat)
  (wave_spec_rest : list R) (lum_spec : list (list R))
  (wave_filter trans_filter z : list R) :
  length lum_spec = n_age ->
  length z = n_gal ->
  shape2 n_age n_gal
    (_calc_obs_mag_no_dimming_vmap_singlemet wave_spec_rest lum_spec
                                             wave_filter trans_filter z)
  /\ (forall j k : nat,
        (j < n_age)%nat -> (k < n_gal)%nat ->
        match nth_error (_calc_obs_mag_no_dimming_vmap_singlemet
                           wave_spec_rest lum_spec wave_filter trans_filter z)
                        j with
        | Some col => nth_error col k
        | None => None
        end
        = Some (_calc_obs_mag_no_dimming wave_spec_rest (nth j lum_spec [])
                  wave_filter trans_filter (nth k z 0)))
  /\ forall lum3 : list (list (list R)),
       _calc_obs_mag_no_dimming_vmap wave_spec_rest lum3 wave_filter
                                     trans_filter z
       = map (fun slice =>
                _calc_obs_mag_no_dimming_vmap_singlemet wave_spec_rest slice
                  wave_filter trans_filter z) lum3.
Proof.
  intros Hage Hgal. unfold _calc_obs_mag_no_dimming_vmap_singlemet.
  repeat split.
  - unfold jvmap_a. now rewrite length_map.
  - unfold jvmap_a, jvmap_b. rewrite Forall_map, Forall_forall.
    intros l _. now rewrite length_map.
  - intros j k Hj Hk.
    apply (jvmap_ab_entry _calc_obs_mag_no_dimming); lia.
Qed.

Lemma calc_obs_mag_no_dimming_vmap_singlemet_entries_witness :
  shape2 2 2
    (_calc_obs_mag_no_dimming_vmap_singlemet [3000; 6000] [[1; 1]; [2; 2]]
       [4000; 5000] [1; 1] [0; 0.5])
  /\ (forall j k : nat,
        (j < 2)%nat -> (k < 2)%nat ->
        match nth_error (_calc_obs_mag_no_dimming_vmap_singlemet
                           [3000; 6000] [[1; 1]; [2; 2]] [4000; 5000] [1; 1]
                           [0; 0.5]) j with
        | Some col => nth_error col k
        | None => None
        end
        = Some (_calc_obs_mag_no_dimming [3000; 6000]
                  (nth j [[1; 1]; [2; 2]] []) [4000; 5000] [1; 1]
                  (nth k [0; 0.5] 0)))
  /\ forall lum3 : list (list (list R)),
       _calc_obs_mag_no_dimming_vmap [3000; 6000] lum3 [4000; 5000] [1; 1]
                                     [0; 0.5]
       = map (fun slice =>
                _calc_obs_mag_no_dimming_vmap_singlemet [3000; 6000] slice
                  [4000; 5000] [1; 1] [0; 0.5]) lum3.
Proof.
  apply (calc_obs_mag_no_dimming_vmap_singlemet_entries 2 2); reflexivity.
Defined.

(** *** Spectra redshifted out of the filter *)

(** X23: when every filter wavelength lies below the first or above the last
    wavelength of the redshifted spectrum, the observed flux is 0: the
    spectrum is never extrapolated. *)
Theorem obs_flux_ssp_no_overlap (x0 f0 : R) (xp fp : list R)
  (wave_filter trans_filter : list R) (z : R) :
  Forall (fun w => w < x0 * (1 + z) \/ w > last (x0 :: xp) x0 * (1 + z))
         wave_filter ->
  _obs_flux_ssp (x0 :: xp) (f0 :: fp) wave_filter trans_filter z = 0.
Proof.
  intros Hout.
  change (_obs_flux_ssp (x0 :: xp) (f0 :: fp) wave_filter trans_filter z)
    with (_rest_flux_ssp
            (x0 * (1 + z) :: map (fun w => w * (1 + z)) xp) (f0 :: fp)
            wave_filter trans_filter).
  apply rest_flux_ssp_no_overlap.
  change (x0 * (1 + z) :: map (fun w => w * (1 + z)) xp)
    with (map (fun w => w * (1 + z)) (x0 :: xp)).
  now rewrite last_scale.
Qed.

Lemma obs_flux_ssp_no_overlap_witness :
  _obs_flux_ssp [3000; 6000] [1; 2] [4000; 5000] [1; 0.5] 1 = 0.
Proof.
  apply (obs_flux_ssp_no_overlap 3000 1 [6000] [2] [4000; 5000] [1; 0.5] 1).
  repeat constructor; simpl; lra.
Defined.

(** *** Magnitudes at redshift zero *)

Lemma log10_1 : log10 1 = 0.
Proof. unfold log10. rewrite ln_1. unfold Rdiv. ring. Qed.

(** X24: at [z = 0] the [-2.5 * log10(1 + z)] term vanishes and the spectrum is
    not shifted: the dimmed observed magnitude is the rest-frame magnitude
    plus the distance modulus at redshift 0, whatever the cosmology
    collaborator returns. *)
Theorem calc_obs_mag_z0
  (distance_modulus : R -> R -> R -> R -> R -> R -> R)
  (wave_spec_rest lum_spec wave_filter trans_filter : list R)
  (Om0 Ode0 w0 wa h : R) :
  _calc_obs_mag distance_modulus wave_spec_rest lum_spec wave_filter
                trans_filter 0 Om0 Ode0 w0 wa h
  = _calc_rest_mag wave_spec_rest lum_spec wave_filter trans_filter
    + distance_modulus 0 Om0 Ode0 w0 wa h.
Proof.
  unfold _calc_obs_mag, _cosmological_dimming, _calc_rest_mag,
    _obs_flux_ssp, _rest_flux_ssp. cbv zeta.
  rewrite redshift0_wave.
  replace (1 + 0) with 1 by ring. rewrite log10_1. ring.
Qed.

(** *** The diffstar caller *)

(** X25: the rest-frame magnitude of a diffstar galaxy does not depend on the
    normalisation of the filter: rescaling [filter_flux] by [c > 0] leaves
    it unchanged, whatever the weighted-SSP collaborator computes. *)
Theorem weighted_rest_mag_filter_scale_invariant
  (LgmetWeights AgeWeights : Type)
  (calc_weighted_ssp :
     R -> list R -> list R -> list (list (list R))
     -> R * R * R * R * R * R -> R * R * R * R * R * R * R
     -> R * R * R * R -> R -> R
     -> LgmetWeights * AgeWeights * list R)
  (c t_obs : R) (lgZsun_bin_mids log_age_gyr spec_wave : list R)
  (spec_flux : list (list (list R))) (filter_wave filter_flux : list R)
  (mah_logt0 mah_logmp mah_logtc mah_k mah_early mah_late : R)
  (lgmcrit lgy_at_mcrit indx_k indx_lo indx_hi floor_low tau_dep : R)
  (lg_qt lg_qs lg_drop lg_rejuv lgmet lgmet_scatter : R) :
  0 < c ->
  _calc_weighted_rest_mag_from_diffstar_params_const_zmet
    LgmetWeights AgeWeights calc_weighted_ssp
    t_obs lgZsun_bin_mids log_age_gyr spec_wave spec_flux filter_wave
    (map (Rmult c) filter_flux)
    mah_logt0 mah_logmp mah_logtc mah_k mah_early mah_late
    lgmcrit lgy_at_mcrit indx_k indx_lo indx_hi floor_low tau_dep
    lg_qt lg_qs lg_drop lg_rejuv lgmet lgmet_scatter
  = _calc_weighted_rest_mag_from_diffstar_params_const_zmet
      LgmetWeights AgeWeights calc_weighted_ssp
      t_obs lgZsun_bin_mids log_age_gyr spec_wave spec_flux filter_wave
      filter_flux
      mah_logt0 mah_logmp mah_logtc mah_k mah_early mah_late
      lgmcrit lgy_at_mcrit indx_k indx_lo indx_hi floor_low tau_dep
      lg_qt lg_qs lg_drop lg_rejuv lgmet lgmet_scatter.
Proof.
  intros Hc.
  unfold _calc_weighted_rest_mag_from_diffstar_params_const_zmet. cbv zeta.
  destruct (calc_weighted_ssp _ _ _ _ _ _ _ _ _)
    as [[lgmet_weights age_weights] weighted_ssp].
  unfold _calc_rest_mag. cbv zeta.
  rewrite rest_flux_ssp_scale, flux_ab0_at_10pc_scale.
  rewrite ratio_scale by lra. reflexivity.
Qed.

Lemma weighted_rest_mag_filter_scale_invariant_witness :
  _calc_weighted_rest_mag_from_diffstar_params_const_zmet
    unit unit
    (fun _ _ _ spec_flux _ _ _ _ _ => (tt, tt, nth 0 (nth 0 spec_flux []) []))
    13 [0] [0] [3000; 6000] [[[1; 2]]] [4000; 5000] (map (Rmult 2) [1; 0.5])
    0 0 0 0 0 0 0 0 0 0 0 0 0 0 0 0 0 0 0
  = _calc_weighted_rest_mag_from_diffstar_params_const_zmet
      unit unit
      (fun _ _ _ spec_flux _ _ _ _ _ =>
         (tt, tt, nth 0 (nth 0 spec_flux []) []))
      13 [0] [0] [3000; 6000] [[[1; 2]]] [4000; 5000] [1; 0.5]
      0 0 0 0 0 0 0 0 0 0 0 0 0 0 0 0 0 0 0.
Proof.
  apply (weighted_rest_mag_filter_scale_invariant unit unit). lra.
Defined.

End PhotometryLaws.
